(** * claude-memory-bridge: prefix inference, mapping discovery and link
    reconciliation

    A shallow embedding of [index.ts].  The program reads and mutates the
    file system through [node:fs]; the embedding threads an explicit
    file-system store through a small state-and-exception monad.  Console
    output and the interactive wizard are not modelled. *)

From Stdlib Require Import ZArith Ascii String.
From stdpp Require Import gmap strings list fin_maps.

Local Open Scope Z_scope.
Local Open Scope nat_scope.

(** ** JavaScript string primitives used by the program *)

Module JsString.

(** [s.replaceAll(from, to)] for one-character patterns. *)
Fixpoint replaceAll (from to : ascii) (s : string) : string :=
  match s with
  | EmptyString => EmptyString
  | String c s' =>
      String (if Ascii.eqb c from then to else c) (replaceAll from to s')
  end.

(** [s.startsWith(p)]. *)
Fixpoint startsWith (s p : string) {struct p} : bool :=
  match p with
  | EmptyString => true
  | String c p' =>
      match s with
      | EmptyString => false
      | String d s' => Ascii.eqb d c && startsWith s' p'
      end
  end.

Fixpoint take (n : nat) (s : string) : string :=
  match n, s with
  | S n', String c s' => String c (take n' s')
  | _, _ => EmptyString
  end.

Fixpoint drop (n : nat) (s : string) : string :=
  match n, s with
  | S n', String _ s' => drop n' s'
  | _, _ => s
  end.

(** [s.slice(b, e)] and [s.slice(b)] for indices [0 <= b]. *)
Definition slice (s : string) (b e : nat) : string := take (e - b) (drop b s).
Definition sliceFrom (s : string) (b : nat) : string := drop b s.

(** [s[i]]: [None] stands for [undefined]. *)
Definition charAt (s : string) (i : nat) : option ascii := String.get i s.

(** [s.lastIndexOf(c)]: the scan keeps the last matching index, [-1] when
    there is none. *)
Fixpoint lastIndexOfFrom (c : ascii) (s : string) (i found : Z) : Z :=
  match s with
  | EmptyString => found
  | String a s' =>
      lastIndexOfFrom c s' (i + 1)%Z (if Ascii.eqb a c then i else found)
  end.

Definition lastIndexOf (s : string) (c : ascii) : Z :=
  lastIndexOfFrom c s 0%Z (-1)%Z.

Fixpoint contains (c : ascii) (s : string) : bool :=
  match s with
  | EmptyString => false
  | String a s' => Ascii.eqb a c || contains c s'
  end.

End JsString.

Import JsString.

(** ** Path encoding *)

Definition encodePrefix (prefix : string) : string :=
  replaceAll "/" "-" prefix.

(** ** Remote prefix detection *)

(** The inner [while] loop of [detectRemotePrefix]: advance [i] while both
    strings have a character at [i] and the characters agree.  [i] never
    exceeds [prefix.length], which bounds the number of iterations. *)
Fixpoint commonLength (fuel : nat) (prefix entry : string) (i : nat) : nat :=
  match fuel with
  | 0 => i
  | S fuel' =>
      if (i <? String.length prefix) && (i <? String.length entry)
         && bool_decide (charAt prefix i = charAt entry i)
      then commonLength fuel' prefix entry (S i)
      else i
  end.

(** One iteration of the [for (const entry of entries.slice(1))] loop. *)
Definition narrowPrefix (prefix entry : string) : string :=
  let i := commonLength (String.length prefix) prefix entry 0 in
  slice prefix 0 i.

(** "Find longest common prefix": [prefix = entries[0]], then narrowed by
    every later entry. *)
Definition longestCommonPrefix (first : string) (rest : list string) : string :=
  fold_left narrowPrefix rest first.

(** "Trim to last hyphen boundary (avoid partial segments)". *)
Definition trimLastHyphen (prefix : string) : string :=
  let lastHyphen := lastIndexOf prefix "-" in
  if (0 <? lastHyphen)%Z then slice prefix 0 (Z.to_nat lastHyphen) else prefix.

(** The body of [detectRemotePrefix] after the directory has been listed:
    [listing] is the result of [readdirSync(projectsPath)]. *)
Definition detectRemotePrefixIn (listing : list string) : option string :=
  let entries := List.filter (fun e => startsWith e "-") listing in
  match entries with
  | [] => None
  | first :: rest =>
      let prefix := longestCommonPrefix first rest in
      let prefix := trimLastHyphen prefix in
      if String.length prefix <? 3 then None else Some prefix
  end.

(** Reading of the specification's prefix inference, for comparison with
    [detectRemotePrefixIn]: the candidate is cut at its last reserved
    character, wherever that character stands. *)
Fixpoint lastPos (c : ascii) (s : string) : option nat :=
  match s with
  | EmptyString => None
  | String a s' =>
      match lastPos c s' with
      | Some k => Some (S k)
      | None => if Ascii.eqb a c then Some 0 else None
      end
  end.

Definition trimToBoundary (candidate : string) : string :=
  match lastPos "-" candidate with
  | Some k => take k candidate
  | None => candidate
  end.


(** Length of the common prefix of two strings, by structural recursion;
    [commonLength] computes it with an index. *)
Fixpoint lcpLen (a b : string) : nat :=
  match a, b with
  | String x a', String y b' => if Ascii.eqb x y then S (lcpLen a' b') else 0
  | _, _ => 0
  end.

(** [p] is a prefix of [s]. *)
Definition isPrefixOf (p s : string) : Prop := exists r, s = p +:+ r.

(** [c] is the character-wise longest common prefix of [names]. *)
Definition isLongestCommonPrefix (c : string) (names : list string) : Prop :=
  Forall (isPrefixOf c) names /\
  forall d, Forall (isPrefixOf d) names -> isPrefixOf d c.

(** [p] ends at a segment boundary of [n]: [n] is [p] itself or goes on
    with the reserved character. *)
Definition endsSegmentOf (p n : string) : Prop :=
  n = p \/ isPrefixOf (p +:+ "-") n.

(** ** The file system *)

(** A store from absolute paths in normal form to the entry found there.
    The store is flat and a path is looked up as it is written: a symbolic
    link is followed at the path itself, not at the directories above it.
    The directory that holds a path matters where an entry is created
    ([parentError], [mkdirSync]).  Permissions are not modelled: a call
    fails only for what the store holds. *)
Inductive node : Type :=
| Dir
| File
| Link (target : string).

Global Instance node_eq_dec : EqDecision node.
Proof. solve_decision. Defined.

Abbreviation FS := (gmap string node).

Inductive errno : Type := ENOENT | EEXIST | EISDIR | ENOTDIR | EINVAL.

Global Instance errno_eq_dec : EqDecision errno.
Proof. solve_decision. Defined.

(** How a call ends: it returns, it throws, or the process exits. *)
Inductive outcome (A : Type) : Type :=
| Ok (a : A)
| Throw (e : errno)
| Exit (code : Z).
Arguments Ok {A} a.
Arguments Throw {A} e.
Arguments Exit {A} code.

Global Instance outcome_eq_dec {A} `{EqDecision A} : EqDecision (outcome A).
Proof. solve_decision. Defined.

(** Computations that may change the file system; the store reached when an
    exception is thrown is kept. *)
Definition IO (A : Type) : Type := FS -> FS * outcome A.

Global Instance IO_ret : MRet IO := fun A a fs => (fs, Ok a).
Global Instance IO_bind : MBind IO := fun A B f m fs =>
  match m fs with
  | (fs', Ok a) => f a fs'
  | (fs', Throw e) => (fs', Throw e)
  | (fs', Exit c) => (fs', Exit c)
  end.

(** A read-only call run inside [IO]. *)
Definition liftRead {A : Type} (r : FS -> outcome A) : IO A :=
  fun fs => (fs, r fs).

(** The directory that holds [p]: [p] up to its last separator, [None] when
    [p] has no separator. *)
Definition dirOf (p : string) : option string :=
  match lastPos "/" p with
  | Some k => Some (take k p)
  | None => None
  end.

(** Where the target of the link at [p] is looked up: an absolute target as
    it is written, a relative one from the directory that holds the link.
    Targets with [.] or [..] segments are outside the model. *)
Definition targetPath (p target : string) : string :=
  if startsWith target "/" then target
  else match dirOf p with
       | Some d => d +:+ "/" +:+ target
       | None => target
       end.

(** [stat]: symbolic links are followed, at most [fuel] of them. *)
Fixpoint follow (fuel : nat) (fs : FS) (p : string) : option node :=
  match fs !! p with
  | None => None
  | Some (Link target) =>
      match fuel with
      | 0 => None
      | S fuel' => follow fuel' fs (targetPath p target)
      end
  | Some n => Some n
  end.

(** The kernel gives up after 40 links. *)
Definition MAXSYMLINKS : nat := 40.

(** [existsSync] never throws; a link whose target is absent does not
    exist for it. *)
Definition existsSync (fs : FS) (p : string) : bool :=
  bool_decide (is_Some (follow MAXSYMLINKS fs p)).

(** [lstatSync] looks at the entry itself. *)
Definition lstatSync (fs : FS) (p : string) : outcome node :=
  match fs !! p with
  | Some n => Ok n
  | None => Throw ENOENT
  end.

Definition isSymbolicLink (n : node) : bool :=
  match n with Link _ => true | _ => false end.

Definition isDirectory (n : node) : bool :=
  match n with Dir => true | _ => false end.

Definition readlinkSync (fs : FS) (p : string) : outcome string :=
  match fs !! p with
  | Some (Link target) => Ok target
  | Some _ => Throw EINVAL
  | None => Throw ENOENT
  end.

(** [join(dir, name)] for a directory in normal form and a plain name,
    where [path.join] appends the name after a separator; [path.join]
    also resolves [.] and [..] and drops an empty name, which is outside
    the model (see [canonical] and [plainName]). *)
Definition join (dir name : string) : string := dir +:+ "/" +:+ name.

(** The name under which [key] is listed in [dir], if it is an entry of
    [dir]. *)
Definition entryName (dir key : string) : option string :=
  if startsWith key (dir +:+ "/") then
    let name := sliceFrom key (String.length dir + 1) in
    if bool_decide (name = EmptyString) || contains "/" name then None
    else Some name
  else None.

(** A [Dirent]: the entry's name and what it is. *)
Definition Dirent : Type := string * node.

Definition direntOf (dir : string) (kv : string * node) : option Dirent :=
  name ← entryName dir kv.1; Some (name, kv.2).

Definition listDir (fs : FS) (dir : string) : list Dirent :=
  omap (direntOf dir)
    (map_to_list (filter (fun kv => is_Some (entryName dir kv.1)) fs)).

(** [readdirSync(p, { withFileTypes: true })].  The order is the store's.
    Directories reached through a symbolic link are outside the model. *)
Definition readdirSync (fs : FS) (p : string) : outcome (list Dirent) :=
  match fs !! p with
  | Some Dir => Ok (listDir fs p)
  | Some _ => Throw ENOTDIR
  | None => Throw ENOENT
  end.

(** [unlinkSync]: removes a file or a link, refuses a directory. *)
Definition unlinkSync (p : string) : IO unit := fun fs =>
  match fs !! p with
  | Some Dir => (fs, Throw EISDIR)
  | Some _ => (delete p fs, Ok tt)
  | None => (fs, Throw ENOENT)
  end.

(** Why no entry can be created at [p]: the directory that holds [p] is
    missing or is not a directory.  [None] when an entry can be created; the
    top directory is always there. *)
Definition parentError (fs : FS) (p : string) : option errno :=
  match dirOf p with
  | None => None
  | Some d =>
      if bool_decide (d = "") then None
      else
        match follow MAXSYMLINKS fs d with
        | Some Dir => None
        | Some _ => Some ENOTDIR
        | None => Some ENOENT
        end
  end.

(** [symlinkSync(target, p)]: refuses a path that is taken, and a path whose
    directory is not there. *)
Definition symlinkSync (target p : string) : IO unit := fun fs =>
  match fs !! p with
  | Some _ => (fs, Throw EEXIST)
  | None =>
      match parentError fs p with
      | Some e => (fs, Throw e)
      | None => (<[p := Link target]> fs, Ok tt)
      end
  end.

(** The directories above [p], outermost first: the prefixes of [p] that end
    before a separator. *)
Definition ancestors (p : string) : list string :=
  map (fun k => take k p)
    (List.filter (fun k => bool_decide (charAt p k = Some "/"%char))
       (seq 1 (String.length p - 1))).

(** [mkdirSync(p, { recursive: true })] goes down [ps], the directories
    above [final] and [final] itself: a directory already there is
    accepted, a missing one is created, anything else ends the call. *)
Fixpoint mkdirEach (final : string) (ps : list string) : IO unit := fun fs =>
  match ps with
  | [] => (fs, Ok tt)
  | q :: rest =>
      match follow MAXSYMLINKS fs q with
      | Some Dir => mkdirEach final rest fs
      | Some _ =>
          (fs, Throw (if bool_decide (q = final) then EEXIST else ENOTDIR))
      | None =>
          match fs !! q with
          | None => mkdirEach final rest (<[q := Dir]> fs)
          | Some _ =>
              (fs, Throw (if bool_decide (q = final) then EEXIST else ENOENT))
          end
      end
  end.

Definition mkdirSync (p : string) : IO unit :=
  mkdirEach p (ancestors p ++ [p]).

(** ** Core logic *)

Inductive LocalState : Type :=
| missing
| symlink_correct
| symlink_wrong
| directory_exists.

Global Instance LocalState_eq_dec : EqDecision LocalState.
Proof. solve_decision. Defined.

Record ProjectMapping : Type := {
  sourceDirName : string;
  sourceFullPath : string;
  localDirName : string;
  localFullPath : string;
  localState : LocalState
}.

Global Instance ProjectMapping_eq_dec : EqDecision ProjectMapping.
Proof. solve_decision. Defined.

Record LinkResult : Type := {
  created : nat;
  updated : nat;
  skipped : nat
}.

Global Instance LinkResult_eq_dec : EqDecision LinkResult.
Proof. solve_decision. Defined.

Section Program.

(** The platform: [homedir()] and [path.resolve], which makes a path
    absolute against the working directory and normalises it. *)
Variable home : string.
Variable resolve : string -> string.

Definition localClaudeProjects : string :=
  join (join home ".claude") "projects".

(** The classification of [localFullPath] in [discoverMappings]; the
    [try]/[catch] turns a failing [lstatSync] or [readlinkSync] into
    ["missing"]. *)
Definition localStateOf (fs : FS) (localFullPath sourceFullPath : string)
  : LocalState :=
  if existsSync fs localFullPath then
    match lstatSync fs localFullPath with
    | Ok stat =>
        if isSymbolicLink stat then
          match readlinkSync fs localFullPath with
          | Ok target =>
              if bool_decide (resolve target = resolve sourceFullPath)
              then symlink_correct else symlink_wrong
          | _ => missing
          end
        else directory_exists
    | _ => missing
    end
  else missing.

(** The body of the [for (const entry of entries)] loop: [None] is
    [continue]. *)
Definition discoverEntry (fs : FS) (sourcePath encodedRemote encodedLocal : string)
    (entry : Dirent) : option ProjectMapping :=
  if negb (isDirectory entry.2) && negb (isSymbolicLink entry.2) then None
  else
    let dirName := entry.1 in
    if negb (startsWith dirName encodedRemote) then None
    else
      let suffix := sliceFrom dirName (String.length encodedRemote) in
      let localDirName := encodedLocal +:+ suffix in
      let sourceFullPath := join sourcePath dirName in
      let localFullPath := join localClaudeProjects localDirName in
      Some {| sourceDirName := dirName;
              sourceFullPath := sourceFullPath;
              localDirName := localDirName;
              localFullPath := localFullPath;
              localState := localStateOf fs localFullPath sourceFullPath |}.

Definition pushMapping (fs : FS) (sourcePath encodedRemote encodedLocal : string)
    (mappings : list ProjectMapping) (entry : Dirent) : list ProjectMapping :=
  match discoverEntry fs sourcePath encodedRemote encodedLocal entry with
  | Some m => mappings ++ [m]
  | None => mappings
  end.

Definition discoverMappings (fs : FS) (sourcePath remotePrefix localPrefix : string)
  : outcome (list ProjectMapping) :=
  let encodedRemote := encodePrefix remotePrefix in
  let encodedLocal := encodePrefix localPrefix in
  if negb (existsSync fs sourcePath) then Exit 1
  else
    match readdirSync fs sourcePath with
    | Ok entries =>
        Ok (fold_left (pushMapping fs sourcePath encodedRemote encodedLocal)
              entries [])
    | Throw e => Throw e
    | Exit c => Exit c
    end.

(** [detectRemotePrefix]: list the directory, then infer. *)
Definition detectRemotePrefix (fs : FS) (projectsPath : string)
  : outcome (option string) :=
  match readdirSync fs projectsPath with
  | Ok entries => Ok (detectRemotePrefixIn (map fst entries))
  | Throw e => Throw e
  | Exit c => Exit c
  end.

(** The [switch] of [doLink], with the three counters threaded through
    the loop. *)
Fixpoint linkEach (mappings : list ProjectMapping) (created updated skipped : nat)
  : IO LinkResult :=
  match mappings with
  | [] => mret {| created := created; updated := updated; skipped := skipped |}
  | m :: rest =>
      match localState m with
      | symlink_correct => linkEach rest created updated (S skipped)
      | symlink_wrong =>
          unlinkSync (localFullPath m) ≫= fun _ =>
          symlinkSync (sourceFullPath m) (localFullPath m) ≫= fun _ =>
          linkEach rest created (S updated) skipped
      | directory_exists => linkEach rest created updated (S skipped)
      | missing =>
          symlinkSync (sourceFullPath m) (localFullPath m) ≫= fun _ =>
          linkEach rest (S created) updated skipped
      end
  end.

Definition ensureLocalRoot : IO unit := fun fs =>
  if negb (existsSync fs localClaudeProjects)
  then mkdirSync localClaudeProjects fs
  else (fs, Ok tt).

Definition doLink (mappings : list ProjectMapping) : IO LinkResult :=
  ensureLocalRoot ≫= fun _ => linkEach mappings 0 0 0.

(** ** Commands *)

(** [scan]: the mappings that are printed. *)
Definition cmdScan (sourcePath remotePrefix localPrefix : string)
  : IO (list ProjectMapping) :=
  liftRead (fun fs => discoverMappings fs sourcePath remotePrefix localPrefix).

(** [link]: the counters of the "Done" line. *)
Definition cmdLink (sourcePath remotePrefix localPrefix : string)
  : IO LinkResult :=
  liftRead (fun fs => discoverMappings fs sourcePath remotePrefix localPrefix)
    ≫= doLink.

Definition isLinked (st : LocalState) : bool :=
  bool_decide (st = symlink_correct) || bool_decide (st = symlink_wrong).

Fixpoint unlinkEach (mappings : list ProjectMapping) (removed : nat) : IO nat :=
  match mappings with
  | [] => mret removed
  | m :: rest =>
      if isLinked (localState m) then
        unlinkSync (localFullPath m) ≫= fun _ => unlinkEach rest (S removed)
      else unlinkEach rest removed
  end.

(** [unlink]: the count of the "Done" line. *)
Definition cmdUnlink (sourcePath remotePrefix localPrefix : string) : IO nat :=
  liftRead (fun fs => discoverMappings fs sourcePath remotePrefix localPrefix)
    ≫= fun mappings => unlinkEach mappings 0.

End Program.

(** ** Paths in normal form *)

(** The segments of a path, the separators taken out. *)
Fixpoint splitOn (c : ascii) (s : string) : list string :=
  match s with
  | EmptyString => [EmptyString]
  | String a s' =>
      if Ascii.eqb a c then EmptyString :: splitOn c s'
      else
        match splitOn c s' with
        | seg :: segs => String a seg :: segs
        | [] => [String a EmptyString]
        end
  end.

(** A name that [path.join] appends as it is: not empty, not [.] or [..],
    and without a separator. *)
Definition plainName (name : string) : bool :=
  negb (bool_decide (name = "")) && negb (bool_decide (name = "."))
  && negb (bool_decide (name = "..")) && negb (contains "/" name).

(** An absolute path in normal form: plain names, each after a separator.
    The store is keyed by such paths, and [join] on them is
    [path.join]. *)
Definition canonical (p : string) : bool :=
  match splitOn "/" p with
  | first :: seg :: segs =>
      bool_decide (first = "") && forallb plainName (seg :: segs)
  | _ => false
  end.

(** No symbolic link at [p] nor above it: the entries below [p] are found
    under the paths that begin with [p]. *)
Definition realPath (fs : FS) (p : string) : bool :=
  forallb (fun q => match fs !! q with Some (Link _) => false | _ => true end)
    (ancestors p ++ [p]).

(** ** Reading of the reconciliation policy *)

(** Number of mappings in a given state. *)
Definition countState (st : LocalState) (ms : list ProjectMapping) : nat :=
  length (List.filter (fun m => bool_decide (localState m = st)) ms).

(** The aggregate the specification promises: one counter per mapping. *)
Definition tally (ms : list ProjectMapping) : LinkResult :=
  {| created := countState missing ms;
     updated := countState symlink_wrong ms;
     skipped := countState symlink_correct ms + countState directory_exists ms |}.

(** The per-mapping policy of the link reconciler, as the specification
    words it.  A link is created where the path is free and the directory
    that holds it is there. *)
Inductive reconciles : FS -> list ProjectMapping -> FS -> LinkResult -> Prop :=
| reconciles_done fs :
    reconciles fs [] fs {| created := 0; updated := 0; skipped := 0 |}
| reconciles_correct fs m ms fs' r :
    localState m = symlink_correct ->
    reconciles fs ms fs' r ->
    reconciles fs (m :: ms) fs'
      {| created := created r; updated := updated r; skipped := S (skipped r) |}
| reconciles_wrong fs m ms fs' r n :
    localState m = symlink_wrong ->
    fs !! localFullPath m = Some n -> n <> Dir ->
    parentError (delete (localFullPath m) fs) (localFullPath m) = None ->
    reconciles (<[localFullPath m := Link (sourceFullPath m)]>
                  (delete (localFullPath m) fs)) ms fs' r ->
    reconciles fs (m :: ms) fs'
      {| created := created r; updated := S (updated r); skipped := skipped r |}
| reconciles_directory fs m ms fs' r :
    localState m = directory_exists ->
    reconciles fs ms fs' r ->
    reconciles fs (m :: ms) fs'
      {| created := created r; updated := updated r; skipped := S (skipped r) |}
| reconciles_missing fs m ms fs' r :
    localState m = missing ->
    fs !! localFullPath m = None ->
    parentError fs (localFullPath m) = None ->
    reconciles (<[localFullPath m := Link (sourceFullPath m)]> fs) ms fs' r ->
    reconciles fs (m :: ms) fs'
      {| created := S (created r); updated := updated r; skipped := skipped r |}.


(** A mapping whose state makes [doLink] call [symlinkSync]. *)
Definition changes (m : ProjectMapping) : Prop :=
  localState m = missing \/ localState m = symlink_wrong.

Global Instance changes_dec m : Decision (changes m).
Proof. unfold changes. apply _. Defined.

(** A mapping that [doLink] leaves alone. *)
Definition settled (m : ProjectMapping) : Prop :=
  localState m = symlink_correct \/ localState m = directory_exists.

(** Two mappings for the same source entry. *)
Definition sameEntry (m m' : ProjectMapping) : Prop :=
  sourceDirName m' = sourceDirName m /\
  sourceFullPath m' = sourceFullPath m /\
  localDirName m' = localDirName m /\
  localFullPath m' = localFullPath m.

(** Number of mappings whose local entry [unlink] removes. *)
Definition countLinked (ms : list ProjectMapping) : nat :=
  length (List.filter (fun m => isLinked (localState m)) ms).

(** ** Auto-detection *)

Record DetectedSource : Type := {
  projectsPath : string;
  localHome : string;
  projectCount : nat
}.

Global Instance DetectedSource_eq_dec : EqDecision DetectedSource.
Proof. solve_decision. Defined.

(** [safeReaddir]: the names listed, or nothing when the listing throws. *)
Definition safeReaddir (fs : FS) (path : string) : list string :=
  match readdirSync fs path with
  | Ok entries => map fst entries
  | _ => []
  end.

(** [isDir]: [lstatSync] does not follow links, and a failure is [false]. *)
Definition isDir (fs : FS) (path : string) : bool :=
  match lstatSync fs path with
  | Ok stat => isDirectory stat
  | _ => false
  end.

Definition searchRoots : list string :=
  ["/mnt"; "/media"; "/run/media"; "/Volumes"].

(** ** Status lines *)

(** What [cmdStatus] prints for an entry: a link with its target and whether
    the target is there, or a local directory. *)
Inductive StatusLine : Type :=
| Bridged (name target : string) (ok : bool)
| LocalDir (name : string).

Global Instance StatusLine_eq_dec : EqDecision StatusLine.
Proof. solve_decision. Defined.

Record StatusReport : Type := {
  lines : list StatusLine;
  symlinks : nat;
  dirs : nat
}.

Global Instance StatusReport_eq_dec : EqDecision StatusReport.
Proof. solve_decision. Defined.

(** ** Command line *)

(** [s.indexOf(c)]: the first matching index, [-1] when there is none. *)
Fixpoint indexOfFrom (c : ascii) (s : string) (i : Z) : Z :=
  match s with
  | EmptyString => (-1)%Z
  | String a s' => if Ascii.eqb a c then i else indexOfFrom c s' (i + 1)%Z
  end.

Definition indexOf (s : string) (c : ascii) : Z := indexOfFrom c s 0%Z.

(** [s.includes(c)]. *)
Definition includes (s : string) (c : ascii) : bool := contains c s.

Record ParsedArgs : Type := {
  command : string;
  source : option string;
  remotePrefix : option string;
  localPrefix : option string
}.

Global Instance ParsedArgs_eq_dec : EqDecision ParsedArgs.
Proof. solve_decision. Defined.

(** The [for (let i = 1; ...)] loop of [parseArgs] over the arguments that
    follow the command; [args[++i]] past the end is [undefined], here
    [None]. *)
Fixpoint parseOptions (args : list string)
    (source remotePrefix localPrefix : option string)
  : outcome (option string * option string * option string) :=
  match args with
  | [] => Ok (source, remotePrefix, localPrefix)
  | arg :: rest =>
      if bool_decide (arg = "--source") then
        match rest with
        | value :: rest' => parseOptions rest' (Some value) remotePrefix localPrefix
        | [] => Ok (None, remotePrefix, localPrefix)
        end
      else if bool_decide (arg = "--map") then
        match rest with
        | map :: rest' =>
            if bool_decide (map = "") || negb (includes map "=") then Exit 1
            else
              let eqIdx := indexOf map "=" in
              parseOptions rest' source
                (Some (slice map 0 (Z.to_nat eqIdx)))
                (Some (sliceFrom map (Z.to_nat (eqIdx + 1))))
        | [] => Exit 1
        end
      else if bool_decide (arg = "--help") || bool_decide (arg = "-h") then Exit 0
      else parseOptions rest source remotePrefix localPrefix
  end.

Definition parseArgs (args : list string) : outcome ParsedArgs :=
  let command :=
    match args with
    | first :: _ => if bool_decide (first = "") then "wizard" else first
    | [] => "wizard"
    end in
  match parseOptions (tail args) None None None with
  | Ok (source, remotePrefix, localPrefix) =>
      Ok {| command := command; source := source;
            remotePrefix := remotePrefix; localPrefix := localPrefix |}
  | Throw e => Throw e
  | Exit c => Exit c
  end.

Record RequiredArgs : Type := {
  requiredSource : string;
  requiredRemotePrefix : string;
  requiredLocalPrefix : string
}.

(** [!x] on an optional string: [undefined] and the empty string. *)
Definition falsy (x : option string) : bool :=
  match x with
  | Some s => bool_decide (s = "")
  | None => true
  end.

Definition requireArgs (parsed : ParsedArgs) : outcome RequiredArgs :=
  if falsy (source parsed) then Exit 1
  else if falsy (remotePrefix parsed) || falsy (localPrefix parsed) then Exit 1
  else
    Ok {| requiredSource := default "" (source parsed);
          requiredRemotePrefix := default "" (remotePrefix parsed);
          requiredLocalPrefix := default "" (localPrefix parsed) |}.

(** [base] lies [depth] directories below [p]: each step is a name listed in
    the directory above it that is itself a directory. *)
Inductive mounted (fs : FS) : nat -> string -> string -> Prop :=
| mounted_here p : mounted fs 0 p p
| mounted_step depth p d base :
    d ∈ safeReaddir fs p ->
    isDir fs (join p d) = true ->
    mounted fs depth (join p d) base ->
    mounted fs (S depth) p base.

(** What the top-level [switch] ran. *)
Inductive Ran : Type :=
| RanWizard
| RanScan (mappings : list ProjectMapping)
| RanLink (result : LinkResult)
| RanUnlink (removed : nat)
| RanStatus (report : option StatusReport)
| RanUsage.

Section Shell.

Variable home : string.
Variable resolve : string -> string.

(** [checkForClaudeUnder] pushes onto [results]; the list after the call is
    returned. *)
Definition checkForClaudeUnder (fs : FS) (basePath excludePath : string)
    (results : list DetectedSource) : list DetectedSource :=
  let claudeProjects := join (join basePath ".claude") "projects" in
  if negb (existsSync fs claudeProjects) then results
  else if bool_decide (resolve claudeProjects = resolve excludePath) then results
  else
    match readdirSync fs claudeProjects with
    | Ok listing =>
        let entries := List.filter (fun e => startsWith e "-") (map fst listing) in
        if length entries =? 0 then results
        else results ++ [{| projectsPath := claudeProjects;
                            localHome := resolve basePath;
                            projectCount := length entries |}]
    | _ => results
    end.

(** The three nested loops of [scanForRemoteClaude], innermost first.  None
    of the calls inside the [try] throws, so its [catch] is not reached. *)
Definition scanDepth3 (fs : FS) (excludePath p2 : string)
    (results : list DetectedSource) : list DetectedSource :=
  fold_left
    (fun results d3 =>
       let p3 := join p2 d3 in
       if negb (isDir fs p3) then results
       else checkForClaudeUnder fs p3 excludePath results)
    (safeReaddir fs p2) results.

Definition scanDepth2 (fs : FS) (excludePath p1 : string)
    (results : list DetectedSource) : list DetectedSource :=
  fold_left
    (fun results d2 =>
       let p2 := join p1 d2 in
       if negb (isDir fs p2) then results
       else scanDepth3 fs excludePath p2
              (checkForClaudeUnder fs p2 excludePath results))
    (safeReaddir fs p1) results.

Definition scanDepth1 (fs : FS) (excludePath root : string)
    (results : list DetectedSource) : list DetectedSource :=
  fold_left
    (fun results d1 =>
       let p1 := join root d1 in
       if negb (isDir fs p1) then results
       else scanDepth2 fs excludePath p1
              (checkForClaudeUnder fs p1 excludePath results))
    (safeReaddir fs root) results.

Definition scanForRemoteClaude (fs : FS) : list DetectedSource :=
  let localProjectsPath := localClaudeProjects home in
  fold_left
    (fun results root =>
       if negb (existsSync fs root) then results
       else scanDepth1 fs localProjectsPath root results)
    searchRoots [].

(** [cmdWizard], when the detected mapping is accepted:
    [remotePrefix = autoPrefix.replaceAll("-", "/")]. *)
Definition wizardRemotePrefix (autoPrefix : string) : string :=
  replaceAll "-" "/" autoPrefix.

(** The three lists of the preview in [cmdWizard] and [cmdScan]. *)
Definition linkable (mappings : list ProjectMapping) : list ProjectMapping :=
  List.filter
    (fun m => bool_decide (localState m = missing)
              || bool_decide (localState m = symlink_wrong)) mappings.

Definition linked (mappings : list ProjectMapping) : list ProjectMapping :=
  List.filter (fun m => bool_decide (localState m = symlink_correct)) mappings.

Definition conflicts (mappings : list ProjectMapping) : list ProjectMapping :=
  List.filter (fun m => bool_decide (localState m = directory_exists)) mappings.

(** One iteration of the loop of [cmdStatus]. *)
Definition statusEntry (fs : FS) (report : StatusReport) (entry : Dirent)
  : outcome StatusReport :=
  let fullPath := join (localClaudeProjects home) entry.1 in
  match lstatSync fs fullPath with
  | Ok stat =>
      if isSymbolicLink stat then
        match readlinkSync fs fullPath with
        | Ok target =>
            let ok := existsSync fs fullPath in
            Ok {| lines := lines report ++ [Bridged entry.1 target ok];
                  symlinks := S (symlinks report);
                  dirs := dirs report |}
        | Throw e => Throw e
        | Exit c => Exit c
        end
      else if isDirectory stat then
        Ok {| lines := lines report ++ [LocalDir entry.1];
              symlinks := symlinks report;
              dirs := S (dirs report) |}
      else Ok report
  | Throw e => Throw e
  | Exit c => Exit c
  end.

Fixpoint statusEach (fs : FS) (entries : list Dirent) (report : StatusReport)
  : outcome StatusReport :=
  match entries with
  | [] => Ok report
  | entry :: rest =>
      match statusEntry fs report entry with
      | Ok report' => statusEach fs rest report'
      | Throw e => Throw e
      | Exit c => Exit c
      end
  end.

(** [status]: nothing to report when the local root does not exist. *)
Definition cmdStatus (fs : FS) : outcome (option StatusReport) :=
  if negb (existsSync fs (localClaudeProjects home)) then Ok None
  else
    match readdirSync fs (localClaudeProjects home) with
    | Ok entries =>
        match statusEach fs entries {| lines := []; symlinks := 0; dirs := 0 |} with
        | Ok report => Ok (Some report)
        | Throw e => Throw e
        | Exit c => Exit c
        end
    | Throw e => Throw e
    | Exit c => Exit c
    end.

(** The interactive wizard is not modelled; [main] is stated for any
    behaviour of it. *)
Variable cmdWizard : IO unit.

(** The top-level [switch (parsed.command)]. *)
Definition main (args : list string) : IO Ran := fun fs =>
  match parseArgs args with
  | Ok parsed =>
      if bool_decide (command parsed = "wizard") then
        (cmdWizard ≫= fun _ => mret RanWizard) fs
      else if bool_decide (command parsed = "scan") then
        match requireArgs parsed with
        | Ok a =>
            (cmdScan home resolve (requiredSource a) (requiredRemotePrefix a)
               (requiredLocalPrefix a) ≫= fun ms => mret (RanScan ms)) fs
        | Throw e => (fs, Throw e)
        | Exit c => (fs, Exit c)
        end
      else if bool_decide (command parsed = "link") then
        match requireArgs parsed with
        | Ok a =>
            (cmdLink home resolve (requiredSource a) (requiredRemotePrefix a)
               (requiredLocalPrefix a) ≫= fun r => mret (RanLink r)) fs
        | Throw e => (fs, Throw e)
        | Exit c => (fs, Exit c)
        end
      else if bool_decide (command parsed = "unlink") then
        match requireArgs parsed with
        | Ok a =>
            (cmdUnlink home resolve (requiredSource a) (requiredRemotePrefix a)
               (requiredLocalPrefix a) ≫= fun n => mret (RanUnlink n)) fs
        | Throw e => (fs, Throw e)
        | Exit c => (fs, Exit c)
        end
      else if bool_decide (command parsed = "status") then
        (liftRead cmdStatus ≫= fun report => mret (RanStatus report)) fs
      else if bool_decide (command parsed = "help")
              || bool_decide (command parsed = "--help")
              || bool_decide (command parsed = "-h") then
        (fs, Ok RanUsage)
      else (fs, Exit 1)
  | Throw e => (fs, Throw e)
  | Exit c => (fs, Exit c)
  end.

End Shell.

(** The sources found below a directory, for comparison with the loops of
    [scanForRemoteClaude]: what each directory adds, in the order of the
    loops. *)
Definition below3 (resolve : string -> string) (fs : FS)
    (excludePath p2 : string) : list DetectedSource :=
  safeReaddir fs p2 ≫= fun d3 =>
    if isDir fs (join p2 d3)
    then checkForClaudeUnder resolve fs (join p2 d3) excludePath []
    else [].

Definition below2 (resolve : string -> string) (fs : FS)
    (excludePath p1 : string) : list DetectedSource :=
  safeReaddir fs p1 ≫= fun d2 =>
    if isDir fs (join p1 d2)
    then checkForClaudeUnder resolve fs (join p1 d2) excludePath []
         ++ below3 resolve fs excludePath (join p1 d2)
    else [].

Definition below1 (resolve : string -> string) (fs : FS)
    (excludePath root : string) : list DetectedSource :=
  safeReaddir fs root ≫= fun d1 =>
    if isDir fs (join root d1)
    then checkForClaudeUnder resolve fs (join root d1) excludePath []
         ++ below2 resolve fs excludePath (join root d1)
    else [].

(** What [cmdStatus] prints for a listed entry, for comparison with its
    loop: a line for a link and for a directory, nothing for a file. *)
Definition statusLineOf (home : string) (fs : FS) (entry : Dirent)
  : option StatusLine :=
  match entry.2 with
  | Link target =>
      Some (Bridged entry.1 target
              (existsSync fs (join (localClaudeProjects home) entry.1)))
  | Dir => Some (LocalDir entry.1)
  | File => None
  end.

(** ** Example stores *)

Definition exampleHome : string := "/h".
Definition exampleSource : string := "/src".

(** Two remote projects; one of them already has a real directory under
    the local root. *)
Definition fsMixed : FS :=
  list_to_map
    [("/src", Dir); ("/src/-home-user-app", Dir); ("/src/-home-user-lib", Dir);
     ("/src/notes.txt", File);
     ("/h/.claude/projects", Dir);
     ("/h/.claude/projects/-mnt-x-home-user-lib", Dir)].

Definition fsMixedLinked : FS :=
  <["/h/.claude/projects/-mnt-x-home-user-app" := Link "/src/-home-user-app"]>
    fsMixed.

Definition mappingApp (st : LocalState) : ProjectMapping :=
  {| sourceDirName := "-home-user-app";
     sourceFullPath := "/src/-home-user-app";
     localDirName := "-mnt-x-home-user-app";
     localFullPath := "/h/.claude/projects/-mnt-x-home-user-app";
     localState := st |}.

Definition mappingLib (st : LocalState) : ProjectMapping :=
  {| sourceDirName := "-home-user-lib";
     sourceFullPath := "/src/-home-user-lib";
     localDirName := "-mnt-x-home-user-lib";
     localFullPath := "/h/.claude/projects/-mnt-x-home-user-lib";
     localState := st |}.

(** Both projects are bridged. *)
Definition fsBridged : FS :=
  list_to_map
    [("/src", Dir); ("/src/-home-user-app", Dir); ("/src/-home-user-lib", Dir);
     ("/h/.claude/projects", Dir);
     ("/h/.claude/projects/-mnt-x-home-user-app", Link "/src/-home-user-app");
     ("/h/.claude/projects/-mnt-x-home-user-lib", Link "/src/-home-user-lib")].

(** The local links date from an earlier mount point: one old target is
    gone, the other is still there. *)
Definition fsStale : FS :=
  list_to_map
    [("/src", Dir); ("/src/-home-user-app", Dir); ("/src/-home-user-lib", Dir);
     ("/old/-home-user-lib", Dir);
     ("/h/.claude/projects", Dir);
     ("/h/.claude/projects/-mnt-x-home-user-app", Link "/gone/-home-user-app");
     ("/h/.claude/projects/-mnt-x-home-user-lib", Link "/old/-home-user-lib")].

(** The source directory is the local root itself. *)
Definition fsSelf : FS :=
  list_to_map
    [("/h/.claude/projects", Dir);
     ("/h/.claude/projects/-a-b-b-x", Dir);
     ("/h/.claude/projects/-a-b-x", Link "/h/.claude/projects/-a-b-b-x");
     ("/h/.claude/projects/-a-x", Link "/h/.claude/projects/-a-b-x")].

(** A remote project that is itself a symbolic link whose target is
    gone. *)
Definition fsDanglingSource : FS :=
  list_to_map
    [("/src", Dir); ("/src/-home-user-app", Link "/gone");
     ("/h/.claude/projects", Dir)].

(** The source directory is named from the working directory, whose
    entries are the keys that do not begin with a separator. *)
Definition fsRelativeSource : FS :=
  list_to_map
    [("src", Dir); ("src/-home-user-app", Dir); ("/h/.claude/projects", Dir)].

(** The local root is absent and is an entry of the source directory. *)
Definition fsNested : FS :=
  list_to_map [("/h/.claude", Dir); ("/h/.claude/profile", Dir)].

(** A home directory of another system, mounted three directories below
    [/mnt], with two projects. *)
Definition fsMounted : FS :=
  list_to_map
    [("/mnt", Dir); ("/mnt/wsl", Dir); ("/mnt/wsl/home", Dir);
     ("/mnt/wsl/home/user", Dir); ("/mnt/wsl/home/user/.claude", Dir);
     ("/mnt/wsl/home/user/.claude/projects", Dir);
     ("/mnt/wsl/home/user/.claude/projects/-home-user-app", Dir);
     ("/mnt/wsl/home/user/.claude/projects/-home-user-lib", Dir);
     ("/h/.claude/projects", Dir)].

Definition mountedSource : DetectedSource :=
  {| projectsPath := "/mnt/wsl/home/user/.claude/projects";
     localHome := "/mnt/wsl/home/user";
     projectCount := 2 |}.

(** * Properties *)

#[local] Arguments String.append !_ _ / : simpl nomatch.

Ltac io_simpl :=
  unfold mbind, IO_bind, mret, IO_ret, liftRead in *; simpl in *.

(** ** Strings *)

Section StringFacts.
Implicit Types s p r : string.

Lemma append_nil_r s : s +:+ "" = s.
Proof. induction s; simpl; congruence. Qed.

Lemma append_assoc s p r : (s +:+ p) +:+ r = s +:+ (p +:+ r).
Proof. induction s; simpl; congruence. Qed.

Lemma append_length s p : String.length (s +:+ p) = String.length s + String.length p.
Proof. induction s; simpl; congruence. Qed.

Lemma append_inv_head s p r : s +:+ p = s +:+ r -> p = r.
Proof. apply String.app_inj. Qed.

Lemma startsWith_app s p : startsWith (p +:+ s) p = true.
Proof. induction p as [|c p IH]; simpl; [done |]. by rewrite Ascii.eqb_refl. Qed.

Lemma startsWith_prefix s p : startsWith s p = true <-> isPrefixOf p s.
Proof.
  split.
  - revert s. induction p as [|c p IH]; intros s H.
    + by exists s.
    + destruct s as [|d s]; simpl in H; [done |].
      apply andb_true_iff in H as [Hc Hs]. apply Ascii.eqb_eq in Hc. subst d.
      destruct (IH _ Hs) as [r ->]. by exists r.
  - intros [r ->]. apply startsWith_app.
Qed.

Lemma drop_app s p : drop (String.length p) (p +:+ s) = s.
Proof. induction p; simpl; auto. Qed.

Lemma take_drop n s : take n s +:+ drop n s = s.
Proof. revert s. induction n; intros [|c s]; simpl; auto. by rewrite IHn. Qed.

Lemma take_prefix n s : isPrefixOf (take n s) s.
Proof. exists (drop n s). by rewrite take_drop. Qed.

Lemma isPrefixOf_refl s : isPrefixOf s s.
Proof. exists ""%string. by rewrite append_nil_r. Qed.

Lemma isPrefixOf_trans s p r : isPrefixOf s p -> isPrefixOf p r -> isPrefixOf s r.
Proof. intros [a ->] [b ->]. exists (a +:+ b). apply append_assoc. Qed.

Lemma isPrefixOf_length s p : isPrefixOf s p -> String.length s <= String.length p.
Proof. intros [r ->]. rewrite append_length. lia. Qed.

Lemma isPrefixOf_cons c d s p :
  isPrefixOf (String c s) (String d p) <-> c = d /\ isPrefixOf s p.
Proof.
  split.
  - intros [r H]. simpl in H. injection H as -> ->. split; [done | by exists r].
  - intros [-> [r ->]]. by exists r.
Qed.

Lemma get_app_length s p : String.get (String.length s) (s +:+ p) = String.get 0 p.
Proof. induction s; simpl; auto. Qed.

End StringFacts.

Lemma commonLength_lcpLen fuel a p e :
  String.length p <= fuel ->
  commonLength fuel (a +:+ p) (a +:+ e) (String.length a)
  = String.length a + lcpLen p e.
Proof.
  revert a p e. induction fuel as [|fuel IH]; intros a p e Hf.
  - destruct p; simpl in *; [lia | lia].
  - simpl. rewrite !append_length. unfold charAt. rewrite !get_app_length.
    destruct p as [|x p].
    + replace (_ <? _) with false by (symmetry; apply Nat.ltb_ge; simpl; lia).
      simpl. lia.
    + destruct e as [|y e].
      * replace (String.length a <? String.length a + String.length ""%string) with false
          by (symmetry; apply Nat.ltb_ge; simpl; lia).
        rewrite andb_false_r. simpl. lia.
      * replace (String.length a <? _) with true by (symmetry; apply Nat.ltb_lt; simpl; lia).
        replace (String.length a <? _) with true by (symmetry; apply Nat.ltb_lt; simpl; lia).
        simpl. destruct (Ascii.eqb x y) eqn:E.
        -- apply Ascii.eqb_eq in E. subst y. rewrite bool_decide_eq_true_2 by done.
           specialize (IH (a +:+ String x "") p e).
           rewrite !append_assoc in IH. simpl in IH. rewrite append_length in IH. simpl in IH.
           replace (S (String.length a)) with (String.length a + 1) by lia.
           rewrite IH by (simpl in Hf; lia). lia.
        -- apply Ascii.eqb_neq in E. rewrite bool_decide_eq_false_2 by congruence. lia.
Qed.

Lemma narrowPrefix_take p e : narrowPrefix p e = take (lcpLen p e) p.
Proof.
  unfold narrowPrefix, slice. simpl.
  pose proof (commonLength_lcpLen (String.length p) "" p e) as H. simpl in H.
  rewrite H by lia. by rewrite Nat.sub_0_r.
Qed.

(** ** Prefix inference *)

Lemma lcpLen_common p e : isPrefixOf (take (lcpLen p e) p) e.
Proof.
  revert e. induction p as [|x p IH]; intros [|y e]; simpl;
    try (by eexists; simpl).
  destruct (Ascii.eqb x y) eqn:E; simpl; [| by eexists; simpl].
  apply Ascii.eqb_eq in E. subst y. apply isPrefixOf_cons. auto.
Qed.

Lemma lcpLen_greatest d p e :
  isPrefixOf d p -> isPrefixOf d e -> isPrefixOf d (take (lcpLen p e) p).
Proof.
  revert p e. induction d as [|c d IH]; intros p e Hp He.
  - by eexists; simpl.
  - destruct p as [|x p]; [destruct Hp as [? Hp]; simpl in Hp; discriminate|].
    destruct e as [|y e]; [destruct He as [? He]; simpl in He; discriminate|].
    apply isPrefixOf_cons in Hp as [-> Hp]. apply isPrefixOf_cons in He as [<- He].
    simpl. rewrite Ascii.eqb_refl. simpl. apply isPrefixOf_cons. auto.
Qed.

Lemma longestCommonPrefix_spec first rest :
  isLongestCommonPrefix (longestCommonPrefix first rest) (first :: rest).
Proof.
  unfold longestCommonPrefix.
  cut (isPrefixOf (fold_left narrowPrefix rest first) first /\
       Forall (isPrefixOf (fold_left narrowPrefix rest first)) rest /\
       forall d, isPrefixOf d first -> Forall (isPrefixOf d) rest ->
                 isPrefixOf d (fold_left narrowPrefix rest first)).
  { intros (H1 & H2 & H3). split; [by constructor |].
    intros d Hd. inversion Hd; subst. auto. }
  revert first. induction rest as [|e rest IH]; intros first; simpl.
  - split; [apply isPrefixOf_refl |]. split; [constructor | auto].
  - destruct (IH (narrowPrefix first e)) as (H1 & H2 & H3).
    rewrite narrowPrefix_take in *.
    split; [eapply isPrefixOf_trans; [exact H1 | apply take_prefix] |].
    split.
    + constructor; [| done].
      eapply isPrefixOf_trans; [exact H1 | apply lcpLen_common].
    + intros d Hd Hall. inversion Hall; subst.
      apply H3; [by apply lcpLen_greatest | done].
Qed.

Lemma lastIndexOfFrom_lastPos c s i found :
  lastIndexOfFrom c s i found
  = match lastPos c s with
    | Some k => (i + Z.of_nat k)%Z
    | None => found
    end.
Proof.
  revert i found. induction s as [|a s IH]; intros i found; simpl; [done |].
  rewrite IH. destruct (lastPos c s) as [k|]; [lia |].
  destruct (Ascii.eqb a c); [lia | done].
Qed.

Lemma lastIndexOf_lastPos s c :
  lastIndexOf s c = match lastPos c s with
                    | Some k => Z.of_nat k
                    | None => (-1)%Z
                    end.
Proof.
  unfold lastIndexOf. rewrite lastIndexOfFrom_lastPos. by destruct (lastPos c s).
Qed.

Lemma lastPos_None c s : lastPos c s = None <-> contains c s = false.
Proof.
  induction s as [|a s IH]; simpl; [done |].
  destruct (lastPos c s) as [k|].
  - split; [done |]. intros H. apply orb_false_iff in H as [_ H].
    apply IH in H. done.
  - destruct (Ascii.eqb a c); simpl; [done |]. split; [| done].
    intros _. by apply IH.
Qed.

Lemma lastPos_Some c s k :
  lastPos c s = Some k ->
  s = take k s +:+ String c (drop (S k) s) /\ contains c (drop (S k) s) = false.
Proof.
  revert k. induction s as [|a s IH]; intros k; simpl; [done |].
  destruct (lastPos c s) as [j|] eqn:E.
  - intros [= <-]. destruct (IH j eq_refl) as [H1 H2].
    change (drop (S (S j)) (String a s)) with (drop (S j) s).
    change (take (S j) (String a s)) with (String a (take j s)).
    split; [| done]. change (String a s = String a (take j s +:+ String c (drop (S j) s))).
    by rewrite <- H1.
  - destruct (Ascii.eqb a c) eqn:Ea; [| done]. intros [= <-].
    apply Ascii.eqb_eq in Ea. subst a. simpl.
    split; [by destruct s |]. apply lastPos_None in E. by destruct s.
Qed.

Lemma trimLastHyphen_lastPos prefix :
  trimLastHyphen prefix
  = match lastPos "-" prefix with
    | Some (S k) => take (S k) prefix
    | _ => prefix
    end.
Proof.
  unfold trimLastHyphen, slice. rewrite lastIndexOf_lastPos.
  destruct (lastPos "-" prefix) as [[|k]|]; try done.
  replace (0 <? Z.of_nat (S k))%Z with true by (symmetry; apply Z.ltb_lt; lia).
  rewrite Nat2Z.id, Nat.sub_0_r. done.
Qed.

Lemma filter_all {A} (f : A -> bool) (l : list A) :
  Forall (fun x => f x = true) l -> List.filter f l = l.
Proof. induction 1 as [|x l Hx _ IH]; simpl; [done |]. by rewrite Hx, IH. Qed.

Lemma detectRemotePrefixIn_unfold first rest :
  Forall (fun n => startsWith n "-" = true) (first :: rest) ->
  detectRemotePrefixIn (first :: rest)
  = let t := trimLastHyphen (longestCommonPrefix first rest) in
    if String.length t <? 3 then None else Some t.
Proof. intros H. unfold detectRemotePrefixIn. by rewrite (filter_all _ _ H). Qed.

Lemma longestCommonPrefix_hyphen first rest :
  Forall (fun n => startsWith n "-" = true) (first :: rest) ->
  exists r, longestCommonPrefix first rest = String "-" r.
Proof.
  intros H. destruct (longestCommonPrefix_spec first rest) as [_ Hg].
  destruct (Hg "-") as [r Hr]; [| by exists r].
  eapply Forall_impl; [exact H |]. intros n Hn. by apply startsWith_prefix.
Qed.

(** C5, as amended.  For every non-empty list of names that begin with the
    reserved character, the candidate [c] is their character-wise longest
    common prefix (the whole name when there is one name).  When the last
    reserved character of the candidate is not its leading character, the
    candidate is cut there, and the result [t] ends at a segment boundary
    of every name.  When the only reserved character of the candidate is
    the leading one and the candidate ends at a segment boundary of every
    name, the candidate is kept whole.  The result is returned when it has
    at least 3 characters, and nothing is returned otherwise.  On the three
    names of the specification the result is ["-home-user"]. *)
Theorem detectRemotePrefix_trimmed_common_prefix :
  (forall names : list string,
      names <> [] ->
      Forall (fun n => startsWith n "-" = true) names ->
      exists c,
        isLongestCommonPrefix c names /\
        (forall n, names = [n] -> c = n) /\
        ((exists t seg,
             t <> "" /\ c = t +:+ String "-" seg /\ contains "-" seg = false /\
             Forall (endsSegmentOf t) names /\
             detectRemotePrefixIn names
             = if String.length t <? 3 then None else Some t)
         \/ (exists seg,
                c = String "-" seg /\ contains "-" seg = false /\
                (Forall (endsSegmentOf c) names ->
                 detectRemotePrefixIn names
                 = if String.length c <? 3 then None else Some c))))
  /\ detectRemotePrefixIn
       ["-home-user-proj-a"; "-home-user-proj-b"; "-home-user-work"]
     = Some "-home-user".
Proof.
  split; [| reflexivity].
  intros [|first rest] Hne Hall; [done |].
  exists (longestCommonPrefix first rest).
  pose proof (longestCommonPrefix_spec first rest) as Hlcp.
  split; [done |]. split; [by intros n [= -> ->] |].
  rewrite (detectRemotePrefixIn_unfold _ _ Hall). simpl.
  rewrite trimLastHyphen_lastPos.
  destruct (longestCommonPrefix_hyphen _ _ Hall) as [r Hr].
  destruct (lastPos "-" (longestCommonPrefix first rest)) as [[|k]|] eqn:E.
  - right. apply lastPos_Some in E as [E1 E2].
    rewrite Hr in E1, E2 |- *. simpl in E1, E2. exists r.
    split; [done |]. split; [by destruct r | done].
  - left. apply lastPos_Some in E as [E1 E2].
    exists (take (S k) (longestCommonPrefix first rest)),
      (drop (S (S k)) (longestCommonPrefix first rest)).
    split; [by rewrite Hr |]. split; [done |]. split; [done |]. split; [| done].
    destruct Hlcp as [Hpre _]. eapply Forall_impl; [exact Hpre |].
    intros n [rest' ->]. right.
    remember (take (S k) (longestCommonPrefix first rest)) as t.
    remember (drop (S (S k)) (longestCommonPrefix first rest)) as seg.
    exists (seg +:+ rest'). rewrite E1, !append_assoc. done.
  - apply lastPos_None in E. rewrite Hr in E. simpl in E. done.
Qed.

Lemma detectRemotePrefix_trimmed_common_prefix_witness :
  exists c,
    isLongestCommonPrefix c ["-home-user-app"; "-home-user-lib"] /\
    (forall n, ["-home-user-app"; "-home-user-lib"] = [n] -> c = n).
Proof.
  destruct (proj1 detectRemotePrefix_trimmed_common_prefix
              ["-home-user-app"; "-home-user-lib"]) as (c & H1 & H2 & _).
  - done.
  - repeat constructor.
  - by exists c.
Defined.

(** C5, as stated, fails: the candidate of ["-home"] and ["-home-user"] is
    ["-home"]; cut at its last reserved character, the leading one, it is
    empty, yet ["-home"] is returned. *)
Lemma detectRemotePrefix_keeps_first_segment :
  let names := ["-home"; "-home-user"] in
  let candidate := longestCommonPrefix "-home" ["-home-user"] in
  candidate = "-home" /\
  trimToBoundary candidate = "" /\
  detectRemotePrefixIn names = Some "-home" /\
  detectRemotePrefixIn names <> Some (trimToBoundary candidate) /\
  detectRemotePrefixIn names <> None.
Proof. vm_compute. repeat split; congruence. Qed.

(** The same happens when the candidate ends inside a segment. *)
Example detectRemotePrefix_partial_segment :
  detectRemotePrefixIn ["-homea"; "-homeb"] = Some "-home".
Proof. reflexivity. Qed.




(** ** Paths and directory listings *)

(** Paths *)

Lemma contains_app c s p : contains c (s +:+ p) = contains c s || contains c p.
Proof. induction s as [|a s IH]; simpl; [done |]. by rewrite IH, orb_assoc. Qed.

Lemma contains_replaceAll c d s : c <> d -> contains c (replaceAll c d s) = false.
Proof.
  intros Hne. induction s as [|a s IH]; simpl; [done |]. rewrite IH, orb_false_r.
  destruct (Ascii.eqb a c) eqn:E; apply Ascii.eqb_neq; [congruence |].
  by apply Ascii.eqb_neq.
Qed.

Lemma encodePrefix_no_separator prefix : contains "/" (encodePrefix prefix) = false.
Proof. by apply contains_replaceAll. Qed.

Lemma join_inj dir a b : join dir a = join dir b -> a = b.
Proof. unfold join. intros H. apply append_inv_head in H. by injection H. Qed.

Lemma join_inj_name d e a b :
  contains "/" a = false -> contains "/" b = false ->
  join d a = join e b -> d = e /\ a = b.
Proof.
  unfold join. revert e. induction d as [|x d IH]; intros [|y e] Ha Hb H; simpl in H.
  - injection H as ->. done.
  - injection H as <- ->. rewrite contains_app in Ha. simpl in Ha.
    rewrite orb_true_r in Ha. done.
  - injection H as -> <-. rewrite contains_app in Hb. simpl in Hb.
    rewrite orb_true_r in Hb. done.
  - injection H as -> H. destruct (IH e Ha Hb H) as [-> ->]. done.
Qed.

Lemma join_length dir name :
  String.length (join dir name) = String.length dir + 1 + String.length name.
Proof. unfold join. rewrite append_length. simpl. lia. Qed.

Lemma join_ne_dir dir name : join dir name <> dir.
Proof. intros H. apply (f_equal String.length) in H. rewrite join_length in H. lia. Qed.

Lemma entryName_Some dir key name :
  entryName dir key = Some name <->
  key = join dir name /\ name <> "" /\ contains "/" name = false.
Proof.
  unfold entryName, sliceFrom. split.
  - destruct (startsWith key (dir +:+ "/")) eqn:E; [| done].
    apply startsWith_prefix in E as [r ->].
    replace (String.length dir + 1) with (String.length (dir +:+ "/"))
      by (rewrite append_length; simpl; lia).
    rewrite drop_app. destruct (bool_decide (r = "")) eqn:Er; [done |].
    destruct (contains "/" r) eqn:Ec; [done |]. simpl. intros [= <-].
    apply bool_decide_eq_false in Er. unfold join. by rewrite append_assoc.
  - intros (-> & Hne & Hc). unfold join. rewrite <- append_assoc, startsWith_app.
    replace (String.length dir + 1) with (String.length (dir +:+ "/"))
      by (rewrite append_length; simpl; lia).
    rewrite drop_app, Hc. by rewrite bool_decide_eq_false_2.
Qed.

(** Directory listings *)

Lemma listDir_elem fs dir name n :
  (name, n) ∈ listDir fs dir <->
  fs !! join dir name = Some n /\ name <> "" /\ contains "/" name = false.
Proof.
  unfold listDir. rewrite list_elem_of_omap. split.
  - intros ([key n'] & Hin & Hd). apply elem_of_map_to_list in Hin.
    apply map_lookup_filter_Some in Hin as [Hin _]. unfold direntOf in Hd. simpl in Hd.
    destruct (entryName dir key) as [nm|] eqn:E; [| done]. simpl in Hd.
    injection Hd as -> ->. apply entryName_Some in E as (-> & ? & ?). done.
  - intros (Hl & Hne & Hc). exists (join dir name, n).
    assert (entryName dir (join dir name) = Some name) as E by by apply entryName_Some.
    split.
    + apply elem_of_map_to_list, map_lookup_filter_Some. split; [done |].
      simpl. by rewrite E.
    + unfold direntOf. simpl. by rewrite E.
Qed.

Lemma listDir_NoDup fs dir : NoDup (map fst (listDir fs dir)).
Proof.
  unfold listDir.
  pose proof (NoDup_fst_map_to_list
                (filter (fun kv : string * node => is_Some (entryName dir kv.1)) fs)) as Hnd.
  induction (map_to_list _) as [|[key n] l IH]; [constructor |].
  simpl in Hnd. apply NoDup_cons in Hnd as [Hnotin Hnd]. specialize (IH Hnd).
  change (omap (direntOf dir) ((key, n) :: l))
    with (match direntOf dir (key, n) with
          | Some e => e :: omap (direntOf dir) l
          | None => omap (direntOf dir) l
          end).
  destruct (direntOf dir (key, n)) as [[nm n']|] eqn:E; [| done].
  simpl. apply NoDup_cons. split; [| done].
  intros Hin. apply Hnotin. apply list_elem_of_fmap in Hin as ([nm' n''] & Heq & Hin).
  simpl in Heq. subst nm'. apply list_elem_of_omap in Hin as ([key' n3] & Hin & Hd).
  apply list_elem_of_fmap. exists (key', n3). split; [| done]. simpl.
  unfold direntOf in E, Hd. simpl in E, Hd.
  destruct (entryName dir key) eqn:E1; [| done].
  destruct (entryName dir key') eqn:E2; [| done].
  simpl in E, Hd. injection E as -> ->. injection Hd as -> ->.
  apply entryName_Some in E1 as [-> _]. apply entryName_Some in E2 as [-> _]. done.
Qed.

Lemma listDir_ext fs fs' dir :
  (forall name, contains "/" name = false -> fs' !! join dir name = fs !! join dir name) ->
  listDir fs' dir = listDir fs dir.
Proof.
  intros H. unfold listDir. f_equal. f_equal.
  apply map_filter_strong_ext_1. intros key n. simpl.
  split; intros [[nm E] Hl]; (split; [by exists nm |]);
    apply entryName_Some in E as (-> & _ & Hc); [by rewrite <- H | by rewrite H].
Qed.

(** ** Reads, classification and the discovery loop *)

Section Discovery.
Variable home : string.
Variable resolve : string -> string.

Abbreviation root := (localClaudeProjects home).

(** File-system reads *)

Lemma follow_lookup_nonlink fuel fs p n :
  fs !! p = Some n -> isSymbolicLink n = false -> follow fuel fs p = Some n.
Proof. intros H Hn. destruct fuel; simpl; rewrite H; by destruct n. Qed.

Lemma follow_None fuel fs p : fs !! p = None -> follow fuel fs p = None.
Proof. intros H. destruct fuel; simpl; by rewrite H. Qed.

Lemma follow_Link fuel fs p target :
  fs !! p = Some (Link target) ->
  follow (S fuel) fs p = follow fuel fs (targetPath p target).
Proof. intros H. simpl. by rewrite H. Qed.

Lemma targetPath_absolute p target :
  startsWith target "/" = true -> targetPath p target = target.
Proof. unfold targetPath. by intros ->. Qed.

Lemma follow_is_Some_lookup fuel fs p :
  is_Some (follow fuel fs p) -> is_Some (fs !! p).
Proof. destruct fuel; simpl; destruct (fs !! p); (done || by intros []). Qed.

Lemma existsSync_true fs p : existsSync fs p = true <-> is_Some (follow MAXSYMLINKS fs p).
Proof. unfold existsSync. apply bool_decide_eq_true. Qed.

Lemma existsSync_nonlink fs p n :
  fs !! p = Some n -> isSymbolicLink n = false -> existsSync fs p = true.
Proof.
  intros H Hn. apply existsSync_true. erewrite follow_lookup_nonlink; eauto.
Qed.

Lemma existsSync_absent fs p : fs !! p = None -> existsSync fs p = false.
Proof.
  intros H. unfold existsSync. apply bool_decide_eq_false.
  rewrite follow_None by done. by intros [].
Qed.

(** Classification *)

Lemma localStateOf_directory_exists fs l s :
  localStateOf resolve fs l s = directory_exists <->
  exists n, fs !! l = Some n /\ isSymbolicLink n = false.
Proof.
  unfold localStateOf, lstatSync, readlinkSync. split.
  - destruct (existsSync fs l); [| done].
    destruct (fs !! l) as [[| |t]|]; simpl; try done; eauto.
    by destruct (bool_decide _).
  - intros (n & H & Hn). rewrite (existsSync_nonlink _ _ _ H Hn), H.
    by destruct n.
Qed.

Lemma localStateOf_link fs l s st :
  localStateOf resolve fs l s = st ->
  st = symlink_correct \/ st = symlink_wrong ->
  exists target, fs !! l = Some (Link target) /\ existsSync fs l = true /\
                 (st = symlink_correct <-> resolve target = resolve s).
Proof.
  unfold localStateOf, lstatSync, readlinkSync.
  destruct (existsSync fs l); [| intros <- [|]; done].
  destruct (fs !! l) as [[| |t]|]; simpl; try (intros <- [|]; done).
  intros <- _. exists t. split; [done |]. split; [done |].
  destruct (bool_decide _) eqn:E.
  - apply bool_decide_eq_true in E. done.
  - apply bool_decide_eq_false in E. split; [done | by intros ?].
Qed.

Lemma localStateOf_missing fs l s :
  localStateOf resolve fs l s = missing <-> existsSync fs l = false.
Proof.
  unfold localStateOf, lstatSync, readlinkSync. split.
  - destruct (existsSync fs l) eqn:E; [| done].
    apply existsSync_true, follow_is_Some_lookup in E as [n E]. rewrite E.
    destruct n; simpl; try done. by destruct (bool_decide _).
  - by intros ->.
Qed.

Lemma localStateOf_linked fs l s target :
  fs !! l = Some (Link target) -> existsSync fs l = true ->
  localStateOf resolve fs l s
  = if bool_decide (resolve target = resolve s) then symlink_correct else symlink_wrong.
Proof. intros H E. unfold localStateOf, lstatSync, readlinkSync. by rewrite E, H. Qed.

(** The discovery loop *)

Lemma fold_pushMapping fs S er el entries acc :
  fold_left (pushMapping home resolve fs S er el) entries acc
  = acc ++ omap (discoverEntry home resolve fs S er el) entries.
Proof.
  revert acc. induction entries as [|e entries IH]; intros acc.
  - simpl. by rewrite app_nil_r.
  - simpl. rewrite IH. unfold pushMapping.
    change (omap (discoverEntry home resolve fs S er el) (e :: entries))
      with (match discoverEntry home resolve fs S er el e with
            | Some m => m :: omap (discoverEntry home resolve fs S er el) entries
            | None => omap (discoverEntry home resolve fs S er el) entries
            end).
    destruct (discoverEntry home resolve fs S er el e); [| done].
    by rewrite <- app_assoc.
Qed.

Lemma discoverMappings_Ok fs S rp lp ms :
  discoverMappings home resolve fs S rp lp = Ok ms <->
  fs !! S = Some Dir /\
  ms = omap (discoverEntry home resolve fs S (encodePrefix rp) (encodePrefix lp))
         (listDir fs S).
Proof.
  unfold discoverMappings, readdirSync. split.
  - destruct (existsSync fs S); simpl; [| done].
    destruct (fs !! S) as [[| |t]|]; try done.
    rewrite fold_pushMapping. simpl. by intros [= <-].
  - intros [H ->]. rewrite (existsSync_nonlink _ _ _ H eq_refl), H. simpl.
    by rewrite fold_pushMapping.
Qed.

Lemma discoverEntry_Some fs S er el e m :
  discoverEntry home resolve fs S er el e = Some m <->
  (isDirectory e.2 = true \/ isSymbolicLink e.2 = true) /\
  startsWith e.1 er = true /\
  m = {| sourceDirName := e.1;
         sourceFullPath := join S e.1;
         localDirName := el +:+ sliceFrom e.1 (String.length er);
         localFullPath := join root (el +:+ sliceFrom e.1 (String.length er));
         localState := localStateOf resolve fs
                         (join root (el +:+ sliceFrom e.1 (String.length er)))
                         (join S e.1) |}.
Proof.
  unfold discoverEntry. split.
  - destruct (isDirectory e.2) eqn:Ed, (isSymbolicLink e.2) eqn:El; simpl; try done;
      (destruct (startsWith e.1 er); simpl; [| done]); intros [= <-]; auto.
  - intros (Hk & -> & ->).
    destruct (isDirectory e.2), (isSymbolicLink e.2); simpl; try done.
    by destruct Hk.
Qed.
End Discovery.

Lemma startsWith_sliceFrom s p :
  startsWith s p = true -> s = p +:+ sliceFrom s (String.length p).
Proof.
  intros H. apply startsWith_prefix in H as [r ->]. unfold sliceFrom.
  by rewrite drop_app.
Qed.

Lemma replaceAll_length a b s : String.length (replaceAll a b s) = String.length s.
Proof. induction s; simpl; congruence. Qed.

Lemma replaceAll_charAt a b s i :
  charAt (replaceAll a b s) i
  = (fun c => if Ascii.eqb c a then b else c) <$> charAt s i.
Proof.
  unfold charAt. revert i. induction s as [|c s IH]; intros i; simpl; [done |].
  destruct i; [done | apply IH].
Qed.

Lemma NoDup_omap_key {A B C D} (f : A -> option B) (k : A -> C) (g : B -> D) (l : list A) :
  (forall a a' b b', f a = Some b -> f a' = Some b' -> g b = g b' -> k a = k a') ->
  NoDup (map k l) -> NoDup (map g (omap f l)).
Proof.
  intros Hk. induction l as [|a l IH]; intros Hnd; [constructor |].
  simpl in Hnd. apply NoDup_cons in Hnd as [Hnotin Hnd].
  change (omap f (a :: l)) with (match f a with
                                 | Some b => b :: omap f l
                                 | None => omap f l
                                 end).
  destruct (f a) as [b|] eqn:E; [| auto].
  simpl. apply NoDup_cons. split; [| auto].
  intros Hin. apply Hnotin. apply list_elem_of_fmap in Hin as (b' & Hb & Hin).
  apply list_elem_of_omap in Hin as (a' & Hin & E').
  apply list_elem_of_fmap. exists a'. split; [| done]. eauto.
Qed.

Section Discovered.
Variable home : string.
Variable resolve : string -> string.

Abbreviation root := (localClaudeProjects home).

Lemma discovered_mapping fs S rp lp ms m :
  discoverMappings home resolve fs S rp lp = Ok ms -> m ∈ ms ->
  exists n suffix,
    (sourceDirName m, n) ∈ listDir fs S /\
    (isDirectory n = true \/ isSymbolicLink n = true) /\
    sourceDirName m = encodePrefix rp +:+ suffix /\
    localDirName m = encodePrefix lp +:+ suffix /\
    sourceFullPath m = join S (sourceDirName m) /\
    localFullPath m = join root (localDirName m) /\
    localState m = localStateOf resolve fs (localFullPath m) (sourceFullPath m).
Proof.
  intros Hd Hin. apply discoverMappings_Ok in Hd as [_ ->].
  apply list_elem_of_omap in Hin as ([name n] & Hin & Hm).
  apply discoverEntry_Some in Hm as (Hk & Hs & ->). simpl in *.
  exists n, (sliceFrom name (String.length (encodePrefix rp))).
  split; [done |]. split; [done |]. split; [by apply startsWith_sliceFrom |]. done.
Qed.

Lemma discovered_names fs S rp lp ms m :
  discoverMappings home resolve fs S rp lp = Ok ms -> m ∈ ms ->
  contains "/" (sourceDirName m) = false /\ contains "/" (localDirName m) = false.
Proof.
  intros Hd Hin.
  destruct (discovered_mapping _ _ _ _ _ _ Hd Hin)
    as (n & suffix & Hl & _ & Hs & Hloc & _).
  apply listDir_elem in Hl as (_ & _ & Hc). split; [done |].
  rewrite Hloc, contains_app, encodePrefix_no_separator. simpl.
  rewrite Hs, contains_app in Hc. by apply orb_false_iff in Hc as [_ ->].
Qed.

Lemma discovered_local_NoDup fs S rp lp ms :
  discoverMappings home resolve fs S rp lp = Ok ms -> NoDup (map localFullPath ms).
Proof.
  intros Hd. apply discoverMappings_Ok in Hd as [_ ->].
  apply (NoDup_omap_key _ fst); [| apply listDir_NoDup].
  intros e e' m m' Hm Hm' Heq.
  apply discoverEntry_Some in Hm as (_ & Hs & ->).
  apply discoverEntry_Some in Hm' as (_ & Hs' & ->). simpl in Heq.
  apply join_inj, append_inv_head in Heq.
  rewrite (startsWith_sliceFrom _ _ Hs), (startsWith_sliceFrom _ _ Hs'). by rewrite Heq.
Qed.
End Discovered.

Section DiscoveryTheorems.
Variable home : string.
Variable resolve : string -> string.

Abbreviation root := (localClaudeProjects home).

Lemma readdirSync_Ok fs S entries :
  readdirSync fs S = Ok entries <-> fs !! S = Some Dir /\ entries = listDir fs S.
Proof.
  unfold readdirSync. destruct (fs !! S) as [[| |t]|]; split;
    try (intros [= <-]); try (intros [[=] ->]); done.
Qed.

(** C7.  [encodePrefix] replaces every path separator by ["-"] and changes
    nothing else.  When the source directory lists [entries], every entry
    that is a directory or a symbolic link and is named
    [encodePrefix remotePrefix +:+ suffix] yields a mapping whose
    [localDirName] is [encodePrefix localPrefix +:+ suffix]; every mapping
    comes from an entry; and an entry whose name does not start with the
    encoded remote prefix, or that is neither a directory nor a symbolic
    link, yields none. *)
Theorem discovery_rewrites_prefix :
  (forall prefix,
      String.length (encodePrefix prefix) = String.length prefix /\
      forall i, charAt (encodePrefix prefix) i
                = (fun c => if Ascii.eqb c "/" then "-"%char else c)
                    <$> charAt prefix i) /\
  (forall fs S rp lp entries,
      readdirSync fs S = Ok entries ->
      exists ms,
        discoverMappings home resolve fs S rp lp = Ok ms /\
        (forall name n suffix,
            (name, n) ∈ entries ->
            isDirectory n = true \/ isSymbolicLink n = true ->
            name = encodePrefix rp +:+ suffix ->
            exists m, m ∈ ms /\ sourceDirName m = name /\
                      localDirName m = encodePrefix lp +:+ suffix) /\
        (forall m, m ∈ ms -> exists n, (sourceDirName m, n) ∈ entries) /\
        (forall name n m,
            (name, n) ∈ entries -> m ∈ ms -> sourceDirName m = name ->
            startsWith name (encodePrefix rp) = true /\
            (isDirectory n = true \/ isSymbolicLink n = true))).
Proof.
  split.
  { intros prefix. split; [apply replaceAll_length | apply replaceAll_charAt]. }
  intros fs S rp lp entries Hr. apply readdirSync_Ok in Hr as [HS ->].
  assert (discoverMappings home resolve fs S rp lp
          = Ok (omap (discoverEntry home resolve fs S (encodePrefix rp) (encodePrefix lp))
                  (listDir fs S))) as Hd by by apply discoverMappings_Ok.
  eexists. split; [exact Hd |]. split; [| split].
  - intros name n suffix Hin Hk ->. eexists. split.
    + apply list_elem_of_omap. exists (encodePrefix rp +:+ suffix, n). split; [done |].
      apply discoverEntry_Some. split; [done |]. split; [apply startsWith_app | done].
    + simpl. split; [done |]. unfold sliceFrom. by rewrite drop_app.
  - intros m Hin. destruct (discovered_mapping _ _ _ _ _ _ _ _ Hd Hin) as (n & _ & Hl & _).
    eauto.
  - intros name n m Hin Hm <-.
    destruct (discovered_mapping _ _ _ _ _ _ _ _ Hd Hm)
      as (n' & suffix & Hl & Hk & Hs & _).
    apply listDir_elem in Hin as [Hin _]. apply listDir_elem in Hl as [Hl _].
    assert (n' = n) as -> by congruence.
    split; [| done]. rewrite Hs. apply startsWith_app.
Qed.

(** C9.  When the source directory does not exist, discovery ends the
    process with exit code 1 and returns no mapping list; [scan], [link]
    and [unlink] end the same way and leave the store as it was. *)
Theorem discovery_requires_source fs S rp lp :
  existsSync fs S = false ->
  discoverMappings home resolve fs S rp lp = Exit 1 /\
  (1 <> 0)%Z /\
  cmdScan home resolve S rp lp fs = (fs, Exit 1) /\
  cmdLink home resolve S rp lp fs = (fs, Exit 1) /\
  cmdUnlink home resolve S rp lp fs = (fs, Exit 1).
Proof.
  intros H.
  assert (discoverMappings home resolve fs S rp lp = Exit 1) as Hd
    by (unfold discoverMappings; by rewrite H).
  split; [done |]. split; [done |].
  unfold cmdScan, cmdLink, cmdUnlink, liftRead, mbind, IO_bind. simpl.
  by rewrite Hd.
Qed.

(** A link that does not exist for [existsSync] is classified [missing]. *)
Lemma localStateOf_dangling fs l s target :
  fs !! l = Some (Link target) -> existsSync fs l = false ->
  localStateOf resolve fs l s = missing.
Proof. intros _ H. by apply localStateOf_missing. Qed.
End DiscoveryTheorems.

Lemma follow_submap fs fs' fuel p n :
  (forall k x, fs' !! k = Some x -> fs !! k = Some x) ->
  follow fuel fs' p = Some n -> follow fuel fs p = Some n.
Proof.
  intros Hsub. revert p. induction fuel as [|fuel IH]; intros p; simpl.
  - destruct (fs' !! p) as [x|] eqn:E; [| done]. rewrite (Hsub _ _ E). done.
  - destruct (fs' !! p) as [x|] eqn:E; [| done]. rewrite (Hsub _ _ E).
    destruct x; auto.
Qed.

Lemma existsSync_submap fs fs' p :
  (forall k x, fs' !! k = Some x -> fs !! k = Some x) ->
  existsSync fs p = false -> existsSync fs' p = false.
Proof.
  intros Hsub H. destruct (existsSync fs' p) eqn:E; [| done].
  apply existsSync_true in E as [n E].
  apply (follow_submap fs) in E; [| done].
  assert (existsSync fs p = true) by (apply existsSync_true; eauto). congruence.
Qed.


(** ** Directories above a path *)

Lemma charAt_drop s k c :
  charAt s k = Some c -> drop k s = String c (drop (S k) s).
Proof.
  unfold charAt. revert k. induction s as [|a s IH]; intros k; simpl.
  - by destruct k.
  - destruct k as [|k]; simpl.
    + by intros [= ->].
    + intros H. by rewrite (IH _ H).
Qed.

Lemma charAt_length s k c : charAt s k = Some c -> k < String.length s.
Proof.
  unfold charAt. revert k. induction s as [|a s IH]; intros k; simpl.
  - by destruct k.
  - destruct k as [|k]; simpl; [lia |]. intros H. apply IH in H. lia.
Qed.

Lemma take_length_le n s : n <= String.length s -> String.length (take n s) = n.
Proof.
  revert n. induction s as [|a s IH]; intros n Hn; simpl in *.
  - destruct n; [done | lia].
  - destruct n as [|n]; simpl; [done |]. rewrite IH; lia.
Qed.

Lemma ancestors_elem p q :
  q ∈ ancestors p <->
  exists k, 1 <= k /\ charAt p k = Some "/"%char /\ q = take k p.
Proof.
  unfold ancestors. rewrite list_elem_of_fmap. split.
  - intros (k & -> & Hk).
    apply list_elem_of_In, (filter_In (fun k => bool_decide (charAt p k = Some "/"%char)))
      in Hk as [Hk Hc].
    apply in_seq in Hk. apply bool_decide_eq_true in Hc. exists k.
    split; [lia | done].
  - intros (k & Hk & Hc & ->). exists k. split; [done |].
    apply list_elem_of_In, (filter_In (fun k => bool_decide (charAt p k = Some "/"%char))).
    split; [| by apply bool_decide_eq_true].
    apply charAt_length in Hc. apply in_seq. lia.
Qed.

(** A directory above [p] is a proper prefix of [p] that ends before a
    separator. *)
Lemma ancestors_prefix p q :
  q ∈ ancestors p -> q <> "" /\ exists r, p = q +:+ String "/" r.
Proof.
  intros (k & Hk & Hc & ->)%ancestors_elem. split.
  - pose proof (charAt_length _ _ _ Hc) as Hl.
    intros E. apply (f_equal String.length) in E.
    rewrite take_length_le in E by lia. simpl in E. lia.
  - exists (drop (S k) p). rewrite <- (charAt_drop _ _ _ Hc). symmetry. apply take_drop.
Qed.



(** ** Link reconciliation *)

Lemma unlinkSync_Ok p fs fs' :
  unlinkSync p fs = (fs', Ok tt) <->
  exists n, fs !! p = Some n /\ n <> Dir /\ fs' = delete p fs.
Proof.
  unfold unlinkSync. split.
  - destruct (fs !! p) as [n|] eqn:E; [| done].
    destruct n; [done | |]; intros [= <-]; eexists; by repeat split.
  - intros (n & -> & Hn & ->). by destruct n.
Qed.

Lemma symlinkSync_Ok target p fs fs' :
  symlinkSync target p fs = (fs', Ok tt) <->
  fs !! p = None /\ parentError fs p = None /\ fs' = <[p := Link target]> fs.
Proof.
  unfold symlinkSync. destruct (fs !! p); [split; [done | by intros [? _]] |].
  destruct (parentError fs p); split;
    try (intros [= <-]); try (intros (_ & ? & ->)); done.
Qed.

(** [mkdirSync] keeps what is there and adds directories, only on the way
    to its path. *)
Lemma mkdirEach_lookup final ps fs k :
  (mkdirEach final ps fs).1 !! k = fs !! k \/
  (fs !! k = None /\ (mkdirEach final ps fs).1 !! k = Some Dir /\ k ∈ ps).
Proof.
  revert fs. induction ps as [|q ps IH]; intros fs; cbn [mkdirEach]; [by left |].
  destruct (follow MAXSYMLINKS fs q) as [[| |t]|] eqn:E; cbn [fst];
    try (by left).
  - destruct (IH fs) as [H|(H1 & H2 & H3)]; [by left |].
    right. split; [done |]. split; [done |]. by apply elem_of_cons, or_intror.
  - destruct (fs !! q) eqn:Eq; cbn [fst]; [by left |].
    destruct (IH (<[q := Dir]> fs)) as [H|(H1 & H2 & H3)].
    + destruct (decide (k = q)) as [->|Hne].
      * right. rewrite H, lookup_insert_eq. split; [done |]. split; [done |].
        apply list_elem_of_here.
      * left. by rewrite H, lookup_insert_ne.
    + right. destruct (decide (k = q)) as [->|Hne];
        [by rewrite lookup_insert_eq in H1 |].
      rewrite lookup_insert_ne in H1 by done. split; [done |]. split; [done |].
      by apply elem_of_cons, or_intror.
Qed.

Lemma mkdirEach_keeps final ps fs k n :
  fs !! k = Some n -> (mkdirEach final ps fs).1 !! k = Some n.
Proof.
  intros H. destruct (mkdirEach_lookup final ps fs k) as [->|(E & _)]; congruence.
Qed.

Lemma mkdirEach_Ok final ps fs fs0 q :
  mkdirEach final ps fs = (fs0, Ok tt) -> q ∈ ps ->
  follow MAXSYMLINKS fs0 q = Some Dir.
Proof.
  revert fs. induction ps as [|q' ps IH]; intros fs H Hin;
    [by apply elem_of_nil in Hin |].
  cbn [mkdirEach] in H.
  assert (forall fs1, mkdirEach final ps fs1 = (fs0, Ok tt) ->
            follow MAXSYMLINKS fs1 q' = Some Dir ->
            follow MAXSYMLINKS fs0 q = Some Dir) as Hstep.
  { intros fs1 H1 Hq'. apply elem_of_cons in Hin as [->|Hin]; [| by eapply IH].
    apply (follow_submap fs0 fs1); [| done]. intros k x Hk.
    pose proof (mkdirEach_keeps final ps fs1 k x Hk) as Hk'. by rewrite H1 in Hk'. }
  destruct (follow MAXSYMLINKS fs q') as [[| |t]|] eqn:E; try done.
  - by eapply Hstep.
  - destruct (fs !! q') eqn:Eq; [done |]. eapply Hstep; [done |].
    apply (follow_lookup_nonlink _ _ _ Dir); [apply lookup_insert_eq | done].
Qed.

Section Linking.
Variable home : string.
Variable resolve : string -> string.

Abbreviation root := (localClaudeProjects home).

Lemma linkEach_reconciles ms c u s fs fs' r :
  linkEach ms c u s fs = (fs', Ok r) <->
  exists r0, reconciles fs ms fs' r0 /\
             r = {| created := c + created r0;
                    updated := u + updated r0;
                    skipped := s + skipped r0 |}.
Proof.
  revert c u s fs. induction ms as [|m ms IH]; intros c u s fs.
  - simpl. io_simpl. split.
    + intros [= <- <-]. eexists. split; [constructor |]. simpl.
      by rewrite !Nat.add_0_r.
    + intros (r0 & Hr & ->). inversion Hr; subst. simpl. by rewrite !Nat.add_0_r.
  - simpl. destruct (localState m) eqn:Est.
    + (* missing *)
      io_simpl. split.
      * destruct (symlinkSync _ _ fs) as [fs1 [[]| |]] eqn:E; try done.
        apply symlinkSync_Ok in E as (Hn & Hp & ->). intros H.
        apply IH in H as (r0 & Hr & ->). eexists. split.
        { by eapply reconciles_missing. }
        simpl. f_equal; lia.
      * intros (r0 & Hr & ->). inversion Hr; subst; try congruence.
        assert (symlinkSync (sourceFullPath m) (localFullPath m) fs
                = (<[localFullPath m := Link (sourceFullPath m)]> fs, Ok tt)) as ->
          by by apply symlinkSync_Ok.
        apply IH. eexists. split; [done |]. simpl. f_equal; lia.
    + (* symlink_correct *)
      rewrite IH. split.
      * intros (r0 & Hr & ->). eexists. split; [by eapply reconciles_correct |].
        simpl. f_equal; lia.
      * intros (r0 & Hr & ->). inversion Hr; subst; try congruence.
        eexists. split; [done |]. simpl. f_equal; lia.
    + (* symlink_wrong *)
      io_simpl. split.
      * destruct (unlinkSync _ fs) as [fs1 [[]| |]] eqn:E; try done.
        apply unlinkSync_Ok in E as (n & Hn & Hd & ->).
        destruct (symlinkSync _ _ _) as [fs2 [[]| |]] eqn:E2; try done.
        apply symlinkSync_Ok in E2 as (_ & Hp & ->). intros H.
        apply IH in H as (r0 & Hr & ->). eexists. split.
        { by eapply reconciles_wrong. }
        simpl. f_equal; lia.
      * intros (r0 & Hr & ->). inversion Hr; subst; try congruence.
        assert (unlinkSync (localFullPath m) fs
                = (delete (localFullPath m) fs, Ok tt)) as ->
          by (apply unlinkSync_Ok; eauto).
        assert (symlinkSync (sourceFullPath m) (localFullPath m)
                  (delete (localFullPath m) fs)
                = (<[localFullPath m := Link (sourceFullPath m)]>
                     (delete (localFullPath m) fs), Ok tt)) as ->
          by (apply symlinkSync_Ok; split; [apply lookup_delete_eq | done]).
        apply IH. eexists. split; [done |]. simpl. f_equal; lia.
    + (* directory_exists *)
      rewrite IH. split.
      * intros (r0 & Hr & ->). eexists. split; [by eapply reconciles_directory |].
        simpl. f_equal; lia.
      * intros (r0 & Hr & ->). inversion Hr; subst; try congruence.
        eexists. split; [done |]. simpl. f_equal; lia.
Qed.

Lemma reconciles_tally fs ms fs' r : reconciles fs ms fs' r -> r = tally ms.
Proof.
  unfold tally, countState.
  induction 1 as [fs|fs m ms fs' r Hst _ IH|fs m ms fs' r n Hst _ _ _ _ IH
                  |fs m ms fs' r Hst _ IH|fs m ms fs' r Hst _ _ _ IH];
    [done | rewrite IH; simpl; rewrite Hst; simpl; f_equal; lia ..].
Qed.

Lemma tally_total ms :
  created (tally ms) + updated (tally ms) + skipped (tally ms) = length ms.
Proof.
  unfold tally, countState. simpl.
  induction ms as [|m ms IH]; simpl; [done |].
  destruct (localState m); simpl; lia.
Qed.

Lemma ensureLocalRoot_Ok fs fs0 :
  ensureLocalRoot home fs = (fs0, Ok tt) <->
  (existsSync fs root = true /\ fs0 = fs) \/
  (existsSync fs root = false /\ mkdirSync root fs = (fs0, Ok tt)).
Proof.
  unfold ensureLocalRoot. destruct (existsSync fs root); simpl.
  - split; [intros [= <-]; auto |]. by intros [[_ ->]|[? _]].
  - split; [auto |]. by intros [[? _]|[_ ?]].
Qed.

Lemma ensureLocalRoot_lookup fs k :
  (ensureLocalRoot home fs).1 !! k = fs !! k \/
  (fs !! k = None /\ (ensureLocalRoot home fs).1 !! k = Some Dir /\
   k ∈ ancestors root ++ [root]).
Proof.
  unfold ensureLocalRoot. destruct (existsSync fs root); simpl; [by left |].
  apply mkdirEach_lookup.
Qed.

(** Once the local root is ensured it is there, and so is every directory
    above it that had to be made. *)
Lemma ensureLocalRoot_exists fs fs0 :
  ensureLocalRoot home fs = (fs0, Ok tt) -> existsSync fs0 root = true.
Proof.
  intros [[He ->]|[_ H]]%ensureLocalRoot_Ok; [done |].
  apply existsSync_true. rewrite (mkdirEach_Ok root _ fs fs0 root H); [done |].
  apply elem_of_app. right. apply list_elem_of_here.
Qed.

Lemma doLink_Ok ms fs fs' r :
  doLink home ms fs = (fs', Ok r) <->
  exists fs0, ensureLocalRoot home fs = (fs0, Ok tt) /\
              linkEach ms 0 0 0 fs0 = (fs', Ok r).
Proof.
  unfold doLink. io_simpl. split.
  - destruct (ensureLocalRoot home fs) as [fs0 [[]| |]]; try done. eauto.
  - intros (fs0 & -> & H). done.
Qed.

Lemma doLink_tally ms fs fs' r :
  doLink home ms fs = (fs', Ok r) -> r = tally ms.
Proof.
  intros H. apply doLink_Ok in H as (fs0 & _ & H).
  apply linkEach_reconciles in H as (r0 & Hr & ->).
  apply reconciles_tally in Hr as ->. by destruct (tally ms).
Qed.

(** C1.  [doLink] applies exactly the per-state policy.  For a home
    directory and local paths in normal form, a call returns [r] and leaves
    the store [fs'] if and only if, once the local root is ensured, the
    mappings are reconciled in order as [reconciles] says:
    [symlink_correct] and [directory_exists] leave the store as it is and
    count as skipped; [symlink_wrong] removes the entry at [localFullPath]
    and creates the link [localFullPath -> sourceFullPath], counting as
    updated; [missing] creates that link, counting as created.  Ensuring
    the local root keeps the store when the root exists; otherwise the root
    and the missing directories above it are made, and nothing else
    changes.  The value returned is the aggregate of the three counters. *)
Theorem doLink_applies_policy ms fs fs' r :
  canonical home = true ->
  Forall (fun m => canonical (localFullPath m) = true) ms ->
  (doLink home ms fs = (fs', Ok r) <->
   exists fs0,
     ensureLocalRoot home fs = (fs0, Ok tt) /\ reconciles fs0 ms fs' r)
  /\ (forall fs0,
         ensureLocalRoot home fs = (fs0, Ok tt) ->
         (existsSync fs root = true /\ fs0 = fs) \/
         (existsSync fs root = false /\
          (forall q, q ∈ ancestors root ++ [root] ->
                     follow MAXSYMLINKS fs0 q = Some Dir) /\
          (forall k, fs0 !! k = fs !! k \/
                     (fs !! k = None /\ fs0 !! k = Some Dir /\
                      k ∈ ancestors root ++ [root]))))
  /\ (doLink home ms fs = (fs', Ok r) ->
      r = {| created := countState missing ms;
             updated := countState symlink_wrong ms;
             skipped := countState symlink_correct ms
                        + countState directory_exists ms |}).
Proof.
  intros _ _. split; [| split].
  - rewrite doLink_Ok. split.
    + intros (fs0 & H0 & H).
      apply linkEach_reconciles in H as (r0 & Hr & ->). exists fs0.
      split; [done |]. by destruct r0.
    + intros (fs0 & H0 & Hr). exists fs0. split; [done |].
      apply linkEach_reconciles. exists r. split; [done |]. by destruct r.
  - intros fs0 H0. pose proof H0 as [[He ->]|[He H]]%ensureLocalRoot_Ok;
      [by left | right].
    split; [done |]. split.
    + intros q Hq. by apply (mkdirEach_Ok root (ancestors root ++ [root]) fs).
    + intros k. pose proof (ensureLocalRoot_lookup fs k) as Hk.
      by rewrite H0 in Hk.
  - intros H. apply doLink_Ok in H as (fs0 & _ & H).
    apply linkEach_reconciles in H as (r0 & Hr & ->).
    apply reconciles_tally in Hr as ->. reflexivity.
Qed.

(** C10.  The counters [doLink] returns add up to the number of mappings:
    every mapping is counted in exactly one of them, whatever its state. *)
Theorem doLink_counts_every_mapping ms fs fs' r :
  doLink home ms fs = (fs', Ok r) ->
  created r + updated r + skipped r = length ms /\
  created r = countState missing ms /\
  updated r = countState symlink_wrong ms /\
  skipped r = countState symlink_correct ms + countState directory_exists ms.
Proof.
  intros H. apply doLink_Ok in H as (fs0 & _ & H).
  apply linkEach_reconciles in H as (r0 & Hr & ->).
  apply reconciles_tally in Hr as ->. simpl.
  split; [apply tally_total | done].
Qed.
End Linking.

(** ** What a run leaves untouched *)

Lemma unlinkSync_lookup_other q p fs :
  q <> p -> (unlinkSync q fs).1 !! p = fs !! p.
Proof.
  intros Hne. unfold unlinkSync. destruct (fs !! q) as [[| |t]|]; simpl; try done;
    by rewrite lookup_delete_ne.
Qed.

Lemma symlinkSync_lookup_other target q p fs :
  q <> p -> (symlinkSync target q fs).1 !! p = fs !! p.
Proof.
  intros Hne. unfold symlinkSync. destruct (fs !! q); simpl; [done |].
  destruct (parentError fs q); simpl; [done |]. by rewrite lookup_insert_ne.
Qed.

Lemma io_bind_store {A B} (c : IO A) (f : A -> IO B) fs :
  (c ≫= f) fs
  = match (c fs).2 with
    | Ok a => f a (c fs).1
    | Throw e => ((c fs).1, Throw e)
    | Exit k => ((c fs).1, Exit k)
    end.
Proof. unfold mbind, IO_bind. by destruct (c fs) as [fs' [a|e|k]]. Qed.

Section Frame.
Variable home : string.
Variable resolve : string -> string.

Abbreviation root := (localClaudeProjects home).

Lemma linkEach_lookup_other ms c u s fs p :
  (forall m, m ∈ ms -> changes m -> localFullPath m <> p) ->
  (linkEach ms c u s fs).1 !! p = fs !! p.
Proof.
  revert c u s fs. induction ms as [|m ms IH]; intros c u s fs Hp; [done |].
  assert (forall m', m' ∈ ms -> changes m' -> localFullPath m' <> p) as Hrest
    by (intros m' Hin; apply Hp; by constructor).
  simpl. destruct (localState m) eqn:Est.
  - rewrite io_bind_store.
    assert (localFullPath m <> p) as Hne by (apply Hp; [constructor | by left]).
    pose proof (symlinkSync_lookup_other (sourceFullPath m) _ _ fs Hne) as Hs.
    destruct (symlinkSync _ _ fs) as [fs1 [[]|e|k]]; simpl in *; try done.
    by rewrite IH.
  - by apply IH.
  - rewrite io_bind_store.
    assert (localFullPath m <> p) as Hne by (apply Hp; [constructor | by right]).
    pose proof (unlinkSync_lookup_other _ _ fs Hne) as Hu.
    destruct (unlinkSync _ fs) as [fs1 [[]|e|k]]; simpl in *; try done.
    rewrite io_bind_store.
    pose proof (symlinkSync_lookup_other (sourceFullPath m) _ _ fs1 Hne) as Hs.
    destruct (symlinkSync _ _ fs1) as [fs2 [[]|e|k]]; simpl in *; try congruence.
    rewrite IH by done. congruence.
  - by apply IH.
Qed.

Lemma ensureLocalRoot_lookup_other fs p :
  p ∉ ancestors root ++ [root] -> (ensureLocalRoot home fs).1 !! p = fs !! p.
Proof.
  intros Hne. by destruct (ensureLocalRoot_lookup home fs p) as [H|(_ & _ & H)].
Qed.

Lemma doLink_lookup_other ms fs p :
  p ∉ ancestors root ++ [root] ->
  (forall m, m ∈ ms -> changes m -> localFullPath m <> p) ->
  (doLink home ms fs).1 !! p = fs !! p.
Proof.
  intros Hroot Hp. unfold doLink. rewrite io_bind_store.
  pose proof (ensureLocalRoot_lookup_other fs p Hroot) as He.
  destruct (ensureLocalRoot home fs) as [fs0 [[]|e|k]]; simpl in *; try done.
  by rewrite linkEach_lookup_other.
Qed.

Lemma cmdLink_discovered fs S rp lp ms :
  discoverMappings home resolve fs S rp lp = Ok ms ->
  cmdLink home resolve S rp lp fs = doLink home ms fs.
Proof. intros H. unfold cmdLink, liftRead, mbind, IO_bind. simpl. by rewrite H. Qed.

Lemma join_join dir name inner :
  join (join dir name) inner = join dir (name +:+ "/" +:+ inner).
Proof. unfold join. by rewrite append_assoc. Qed.

Lemma discovered_changes fs S rp lp ms m :
  discoverMappings home resolve fs S rp lp = Ok ms -> m ∈ ms -> changes m ->
  fs !! localFullPath m = None \/ exists target, fs !! localFullPath m = Some (Link target).
Proof.
  intros Hd Hin Hc.
  destruct (discovered_mapping _ _ _ _ _ _ _ _ Hd Hin)
    as (_ & _ & _ & _ & _ & _ & _ & _ & Hst).
  destruct Hc as [Hc|Hc]; rewrite Hc in Hst; symmetry in Hst.
  - apply localStateOf_missing in Hst.
    destruct (fs !! localFullPath m) as [[| |t]|] eqn:E; eauto.
    + by rewrite (existsSync_nonlink _ _ _ E eq_refl) in Hst.
    + by rewrite (existsSync_nonlink _ _ _ E eq_refl) in Hst.
  - apply localStateOf_link in Hst as (t & Ht & _); eauto.
Qed.




End Frame.

(** ** The store after a run *)

Lemma reconciles_lookup_other fs ms fs' r p :
  reconciles fs ms fs' r ->
  (forall m, m ∈ ms -> changes m -> localFullPath m <> p) ->
  fs' !! p = fs !! p.
Proof.
  induction 1 as [fs|fs m ms fs' r Hst _ IH|fs m ms fs' r n Hst _ _ _ _ IH
                  |fs m ms fs' r Hst _ IH|fs m ms fs' r Hst _ _ _ IH]; intros Hp;
    [done | | | |];
    assert (forall m', m' ∈ ms -> changes m' -> localFullPath m' <> p) as Hrest
      by (intros m' Hin; apply Hp; by constructor);
    rewrite IH by done; try done.
  - assert (localFullPath m <> p) by (apply Hp; [constructor | by right]).
    by rewrite lookup_insert_ne, lookup_delete_ne.
  - assert (localFullPath m <> p) by (apply Hp; [constructor | by left]).
    by rewrite lookup_insert_ne.
Qed.

Lemma reconciles_changed fs ms fs' r m :
  reconciles fs ms fs' r ->
  NoDup (map localFullPath ms) ->
  m ∈ ms -> changes m ->
  fs' !! localFullPath m = Some (Link (sourceFullPath m)) /\
  (localState m = missing -> fs !! localFullPath m = None) /\
  (localState m = symlink_wrong -> is_Some (fs !! localFullPath m)).
Proof.
  induction 1 as [fs|fs m0 ms fs' r Hst Hrec IH|fs m0 ms fs' r n Hst Hn Hd _ Hrec IH
                  |fs m0 ms fs' r Hst Hrec IH|fs m0 ms fs' r Hst Hn _ Hrec IH];
    intros Hnd Hin Hc; [by apply elem_of_nil in Hin | | | |];
    simpl in Hnd; apply NoDup_cons in Hnd as [Hnotin Hnd];
    apply elem_of_cons in Hin as [->|Hin].
  - destruct Hc; congruence.
  - by apply IH.
  - split; [| split; [congruence | eauto]].
    erewrite reconciles_lookup_other; [| exact Hrec |].
    + by rewrite lookup_insert_eq.
    + intros m' Hin' _ Heq. apply Hnotin. rewrite <- Heq.
      by apply list_elem_of_fmap_2.
  - assert (localFullPath m0 <> localFullPath m) as Hne.
    { intros Heq. apply Hnotin. rewrite Heq. by apply list_elem_of_fmap_2. }
    destruct (IH Hnd Hin Hc) as (H1 & H2 & H3).
    rewrite lookup_insert_ne, lookup_delete_ne in H2, H3 by done. done.
  - destruct Hc; congruence.
  - by apply IH.
  - split; [| split; [done | congruence]].
    erewrite reconciles_lookup_other; [| exact Hrec |].
    + by rewrite lookup_insert_eq.
    + intros m' Hin' _ Heq. apply Hnotin. rewrite <- Heq.
      by apply list_elem_of_fmap_2.
  - assert (localFullPath m0 <> localFullPath m) as Hne.
    { intros Heq. apply Hnotin. rewrite Heq. by apply list_elem_of_fmap_2. }
    destruct (IH Hnd Hin Hc) as (H1 & H2 & H3).
    rewrite lookup_insert_ne in H2, H3 by done. done.
Qed.

Lemma settled_or_changes m : settled m \/ changes m.
Proof. unfold settled, changes. destruct (localState m); auto. Qed.

Lemma linkEach_settled ms c u s fs :
  Forall settled ms ->
  linkEach ms c u s fs
  = (fs, Ok {| created := c; updated := u; skipped := s + length ms |}).
Proof.
  intros H. revert s. induction H as [|m ms Hm _ IH]; intros s; simpl.
  - by rewrite Nat.add_0_r.
  - destruct Hm as [-> | ->]; rewrite IH; do 3 f_equal; lia.
Qed.

Lemma NoDup_map_inj {A B} (f : A -> B) (l : list A) x y :
  NoDup (map f l) -> x ∈ l -> y ∈ l -> f x = f y -> x = y.
Proof.
  induction l as [|a l IH]; intros Hnd Hx Hy Heq; [by apply elem_of_nil in Hx |].
  simpl in Hnd. apply NoDup_cons in Hnd as [Hnotin Hnd].
  apply elem_of_cons in Hx as [->|Hx]; apply elem_of_cons in Hy as [->|Hy]; auto.
  - exfalso. apply Hnotin. rewrite Heq. by apply list_elem_of_fmap_2.
  - exfalso. apply Hnotin. rewrite <- Heq. by apply list_elem_of_fmap_2.
Qed.

Lemma Forall2_Forall_r {A B} (R : A -> B -> Prop) (P : B -> Prop) l l2 :
  Forall2 R l l2 -> (forall x y, x ∈ l -> R x y -> P y) -> Forall P l2.
Proof.
  induction 1 as [|x y l l2 Hxy _ IH]; intros H; constructor.
  - eapply H; [constructor | done].
  - apply IH. intros x' y' Hin. apply H. by constructor.
Qed.

(** Two prefixes of one string: one of them is a prefix of the other. *)
Lemma append_eq_append a b c d :
  a +:+ b = c +:+ d ->
  exists x, (c = a +:+ x /\ b = x +:+ d) \/ (a = c +:+ x /\ d = x +:+ b).
Proof.
  revert c. induction a as [|h a IH]; intros c H; simpl in H.
  - exists c. by left.
  - destruct c as [|h' c]; simpl in H.
    + exists (String h a). by right.
    + injection H as -> H. destruct (IH _ H) as [x [[-> ->]|[-> ->]]];
        exists x; [by left | by right].
Qed.

(** A path below [dir] is not an entry of [other] unless [other] is [dir]
    or lies below it. *)
Lemma below_not_entry dir other rest name :
  dir <> other ->
  startsWith other (dir +:+ "/") = false ->
  contains "/" name = false ->
  dir +:+ "/" +:+ rest <> join other name.
Proof.
  intros Hne Hout Hname Heq. unfold join in Heq.
  apply append_eq_append in Heq as [x [[Ho Hr]|[Hd Hn]]].
  - destruct x as [|h x]; [by rewrite append_nil_r in Ho |].
    simpl in Hr. injection Hr as <- _.
    change (String "/" x) with ("/" +:+ x) in Ho. rewrite <- append_assoc in Ho.
    rewrite Ho, startsWith_app in Hout. done.
  - destruct x as [|h x]; [by rewrite append_nil_r in Hd |].
    simpl in Hn. injection Hn as <- ->.
    rewrite contains_app in Hname. simpl in Hname. by rewrite orb_true_r in Hname.
Qed.

Lemma startsWith_below dir rest tail :
  startsWith ((dir +:+ "/" +:+ rest) +:+ tail) (dir +:+ "/") = true.
Proof.
  replace ((dir +:+ "/" +:+ rest) +:+ tail) with ((dir +:+ "/") +:+ (rest +:+ tail))
    by (by rewrite !append_assoc).
  apply startsWith_app.
Qed.

Lemma below_not_above dir other rest :
  startsWith other (dir +:+ "/") = false ->
  dir +:+ "/" +:+ rest ∉ ancestors other ++ [other].
Proof.
  intros Hout [H|H%list_elem_of_singleton]%elem_of_app.
  - apply ancestors_prefix in H as [_ [r ->]]. by rewrite startsWith_below in Hout.
  - subst other. rewrite <- (append_nil_r (dir +:+ "/" +:+ rest)) in Hout.
    by rewrite startsWith_below in Hout.
Qed.

Section SecondRun.
Variable home : string.
Variable resolve : string -> string.

Abbreviation root := (localClaudeProjects home).

Lemma discoverEntry_rescan fs fs1 S er el (entries : list Dirent) :
  Forall2 (fun m m2 => sameEntry m m2 /\
                       localState m2
                       = localStateOf resolve fs1 (localFullPath m) (sourceFullPath m))
    (omap (discoverEntry home resolve fs S er el) entries)
    (omap (discoverEntry home resolve fs1 S er el) entries).
Proof.
  induction entries as [|e entries IH]; [constructor |].
  change (omap ?f (e :: entries))
    with (match f e with Some b => b :: omap f entries | None => omap f entries end).
  destruct (discoverEntry home resolve fs S er el e) as [m|] eqn:E.
  - apply discoverEntry_Some in E as (Hk & Hs & ->).
    assert (discoverEntry home resolve fs1 S er el e = Some _) as ->
      by (apply discoverEntry_Some; eauto).
    constructor; [| done]. by repeat split.
  - assert (discoverEntry home resolve fs1 S er el e = None) as ->; [| done].
    destruct (discoverEntry home resolve fs1 S er el e) as [m|] eqn:E1; [| done].
    apply discoverEntry_Some in E1 as (Hk & Hs & _).
    assert (is_Some (discoverEntry home resolve fs S er el e)) as [m' Hm'];
      [| congruence].
    eexists. apply discoverEntry_Some; eauto.
Qed.

Section AfterLink.
Variables (fs fs1 : FS) (S rp lp : string) (ms : list ProjectMapping)
          (r1 : LinkResult).
Hypothesis Hdiscovered : discoverMappings home resolve fs S rp lp = Ok ms.
Hypothesis Hlinked : doLink home ms fs = (fs1, Ok r1).

Lemma linked_store :
  exists fs0,
    ensureLocalRoot home fs = (fs0, Ok tt) /\ reconciles fs0 ms fs1 r1.
Proof.
  apply doLink_Ok in Hlinked as (fs0 & H0 & Hr).
  apply linkEach_reconciles in Hr as (r0 & Hr & Hr1).
  assert (r0 = r1) as -> by (rewrite Hr1; by destruct r0). eauto.
Qed.

Lemma linked_unchanged k :
  (forall m, m ∈ ms -> changes m -> localFullPath m <> k) ->
  is_Some (fs !! k) \/ k ∉ ancestors root ++ [root] ->
  fs1 !! k = fs !! k.
Proof.
  intros Hk Hp. destruct linked_store as (fs0 & H0 & Hr).
  rewrite (reconciles_lookup_other _ _ _ _ _ Hr Hk).
  pose proof (ensureLocalRoot_lookup home fs k) as Hl. rewrite H0 in Hl.
  destruct Hl as [|(Hn & _ & Hin)]; [done |].
  destruct Hp as [[n Hp]|]; [congruence | done].
Qed.

Lemma linked_changed m :
  m ∈ ms -> changes m ->
  fs1 !! localFullPath m = Some (Link (sourceFullPath m)) /\
  (fs !! localFullPath m = None \/
   exists t, fs !! localFullPath m = Some (Link t)).
Proof.
  intros Hin Hc. destruct linked_store as (fs0 & H0 & Hr).
  pose proof (discovered_local_NoDup _ _ _ _ _ _ _ Hdiscovered) as Hnd.
  destruct (reconciles_changed _ _ _ _ _ Hr Hnd Hin Hc) as (H1 & _ & _).
  split; [done |]. eapply discovered_changes; eauto.
Qed.

Lemma linked_keeps_nonlink k n :
  fs !! k = Some n -> isSymbolicLink n = false -> fs1 !! k = Some n.
Proof.
  intros Hk Hn. rewrite <- Hk. apply linked_unchanged; [| by left; eauto].
  intros m Hin Hc Heq. destruct (linked_changed m Hin Hc) as [_ [E|[t E]]];
    rewrite Heq, Hk in E; [done |]. injection E as ->. done.
Qed.




Hypothesis Hapart : S <> root.
Hypothesis Houtside : startsWith root (S +:+ "/") = false.

(** Nothing below the source directory changes when the local root is
    neither the source directory nor located under it. *)
Lemma linked_below rest : fs1 !! (S +:+ "/" +:+ rest) = fs !! (S +:+ "/" +:+ rest).
Proof.
  apply linked_unchanged.
  - intros m Hin _ Heq.
    destruct (discovered_mapping _ _ _ _ _ _ _ _ Hdiscovered Hin)
      as (_ & _ & _ & _ & _ & _ & _ & Hloc & _).
    destruct (discovered_names _ _ _ _ _ _ _ _ Hdiscovered Hin) as [_ Hc].
    rewrite Hloc in Heq. symmetry in Heq. by apply below_not_entry in Heq.
  - right. by apply below_not_above.
Qed.

Lemma linked_listing : listDir fs1 S = listDir fs S.
Proof. apply listDir_ext. intros name _. apply linked_below. Qed.
End AfterLink.

End SecondRun.

(** ** Unlink *)

Lemma countLinked_states ms :
  countLinked ms = countState symlink_correct ms + countState symlink_wrong ms.
Proof.
  unfold countLinked, countState. induction ms as [|m ms IH]; simpl; [done |].
  destruct (localState m); simpl; lia.
Qed.

Lemma countLinked_cons m ms :
  countLinked (m :: ms)
  = (if isLinked (localState m) then 1 else 0) + countLinked ms.
Proof. unfold countLinked. simpl. by destruct (isLinked (localState m)). Qed.

Lemma isLinked_true st :
  isLinked st = true <-> st = symlink_correct \/ st = symlink_wrong.
Proof. destruct st; unfold isLinked; simpl; split; intros; try done; auto; by destruct H. Qed.

Section Unlinking.
Variable home : string.
Variable resolve : string -> string.

Abbreviation root := (localClaudeProjects home).

Lemma unlinkEach_run ms k fs :
  NoDup (map localFullPath ms) ->
  (forall m, m ∈ ms -> isLinked (localState m) = true ->
             exists t, fs !! localFullPath m = Some (Link t)) ->
  exists fs',
    unlinkEach ms k fs = (fs', Ok (k + countLinked ms)) /\
    (forall m, m ∈ ms -> isLinked (localState m) = true ->
               fs' !! localFullPath m = None) /\
    (forall p, (forall m, m ∈ ms -> isLinked (localState m) = true ->
                          localFullPath m <> p) ->
               fs' !! p = fs !! p) /\
    size fs = size fs' + countLinked ms.
Proof.
  revert k fs. induction ms as [|m ms IH]; intros k fs Hnd Hl.
  - exists fs. simpl. unfold mret, IO_ret, countLinked. simpl.
    rewrite !Nat.add_0_r. split; [done |]. split; [| done].
    intros m Hin. by apply elem_of_nil in Hin.
  - simpl in Hnd. apply NoDup_cons in Hnd as [Hnotin Hnd].
    simpl. rewrite countLinked_cons.
    destruct (isLinked (localState m)) eqn:E.
    + destruct (Hl m) as [t Ht]; [constructor | done |].
      rewrite io_bind_store.
      assert (unlinkSync (localFullPath m) fs = (delete (localFullPath m) fs, Ok tt))
        as -> by (apply unlinkSync_Ok; eauto).
      simpl.
      assert (forall m', m' ∈ ms -> isLinked (localState m') = true ->
                exists t', delete (localFullPath m) fs !! localFullPath m' = Some (Link t'))
        as Hl'.
      { intros m' Hin' Hlk. destruct (Hl m') as [t' Ht']; [by constructor | done |].
        exists t'. rewrite lookup_delete_ne; [done |].
        intros Heq. apply Hnotin. rewrite Heq. by apply list_elem_of_fmap_2. }
      destruct (IH (S k) (delete (localFullPath m) fs) Hnd Hl')
        as (fs' & Hrun & Hgone & Hkeep & Hsize).
      exists fs'. split; [rewrite Hrun; do 2 f_equal; lia |]. split; [| split].
      * intros m' Hin' Hlk. apply elem_of_cons in Hin' as [->|Hin']; [| by apply Hgone].
        rewrite Hkeep; [apply lookup_delete_eq |].
        intros m' Hin' _ Heq. apply Hnotin. rewrite <- Heq.
        by apply list_elem_of_fmap_2.
      * intros p Hp. rewrite Hkeep.
        -- apply lookup_delete_ne. apply Hp; [constructor | done].
        -- intros m' Hin'. apply Hp. by constructor.
      * rewrite map_size_delete_Some in Hsize by eauto.
        assert (size fs <> 0) by (intros H0; apply map_size_empty_iff in H0; by subst).
        lia.
    + assert (forall m', m' ∈ ms -> isLinked (localState m') = true ->
                exists t', fs !! localFullPath m' = Some (Link t')) as Hl'
        by (intros m' Hin'; apply Hl; by constructor).
      destruct (IH k fs Hnd Hl') as (fs' & Hrun & Hgone & Hkeep & Hsize).
      exists fs'. split; [by rewrite Hrun |]. split; [| split; [| done]].
      * intros m' Hin' Hlk. apply elem_of_cons in Hin' as [->|Hin']; [congruence |].
        by apply Hgone.
      * intros p Hp. apply Hkeep. intros m' Hin'. apply Hp. by constructor.
Qed.

Lemma cmdUnlink_discovered fs S rp lp ms :
  discoverMappings home resolve fs S rp lp = Ok ms ->
  cmdUnlink home resolve S rp lp fs = unlinkEach ms 0 fs.
Proof. intros H. unfold cmdUnlink, liftRead, mbind, IO_bind. simpl. by rewrite H. Qed.

Lemma discovered_linked fs S rp lp ms m :
  discoverMappings home resolve fs S rp lp = Ok ms -> m ∈ ms ->
  isLinked (localState m) = true ->
  exists t, fs !! localFullPath m = Some (Link t).
Proof.
  intros Hd Hin Hl. apply isLinked_true in Hl.
  destruct (discovered_mapping _ _ _ _ _ _ _ _ Hd Hin)
    as (_ & _ & _ & _ & _ & _ & _ & _ & Hst). symmetry in Hst.
  destruct (localStateOf_link _ _ _ _ _ Hst Hl) as (t & Ht & _). eauto.
Qed.

(** C8, as amended.  [unlink] returns; it removes the link of every
    mapping in state [symlink_correct] or [symlink_wrong], leaves the local
    entry of every mapping in state [missing] or [directory_exists], and
    every path that is no mapping's local path, as it was, and reports as
    [removed] the number of links removed.  When the
    source directory is not the local root and every mapping was
    [symlink_correct], a following [scan] shows the same mappings, all
    [missing]. *)
Theorem unlink_removes_links fs S rp lp ms :
  discoverMappings home resolve fs S rp lp = Ok ms ->
  exists fs' removed,
    cmdUnlink home resolve S rp lp fs = (fs', Ok removed) /\
    removed = countState symlink_correct ms + countState symlink_wrong ms /\
    size fs = size fs' + removed /\
    (forall m, m ∈ ms ->
               localState m = symlink_correct \/ localState m = symlink_wrong ->
               (exists target, fs !! localFullPath m = Some (Link target)) /\
               fs' !! localFullPath m = None) /\
    (forall m, m ∈ ms ->
               localState m = missing \/ localState m = directory_exists ->
               fs' !! localFullPath m = fs !! localFullPath m) /\
    (forall p, (forall m, m ∈ ms -> localFullPath m <> p) -> fs' !! p = fs !! p) /\
    (S <> root ->
     Forall (fun m => localState m = symlink_correct) ms ->
     exists ms',
       (cmdScan home resolve S rp lp fs').2 = Ok ms' /\
       Forall2 (fun m m' => sameEntry m m' /\ localState m' = missing) ms ms').
Proof.
  intros Hd. pose proof (discovered_local_NoDup _ _ _ _ _ _ _ Hd) as Hnd.
  assert (forall m, m ∈ ms -> isLinked (localState m) = true ->
            exists t, fs !! localFullPath m = Some (Link t)) as Hlinks
    by (intros m Hin Hl; eapply discovered_linked; eauto).
  destruct (unlinkEach_run ms 0 fs Hnd Hlinks) as (fs' & Hrun & Hgone & Hkeep & Hsize).
  exists fs', (countLinked ms). rewrite (cmdUnlink_discovered _ _ _ _ _ Hd).
  split; [done |]. split; [apply countLinked_states |]. split; [done |].
  split; [| split; [| split]].
  - intros m Hin Hl. apply isLinked_true in Hl. split; [| by apply Hgone].
    eapply discovered_linked; eauto.
  - intros m Hin Hst. apply Hkeep. intros m' Hin' Hl' Heq.
    assert (m' = m) as -> by eauto using NoDup_map_inj.
    apply isLinked_true in Hl'. destruct Hst, Hl'; congruence.
  - intros p Hp. apply Hkeep. intros m Hin _. by apply Hp.
  - intros Hapart Hall. unfold cmdScan, liftRead. simpl.
    pose proof Hd as Hd'. apply discoverMappings_Ok in Hd' as [HS Hms].
    assert (forall k, (forall m, m ∈ ms -> localFullPath m <> k) -> fs' !! k = fs !! k)
      as Hframe.
    { intros k Hk. apply Hkeep. intros m Hin _. by apply Hk. }
    assert (listDir fs' S = listDir fs S) as Hlist.
    { apply listDir_ext. intros name Hname. apply Hframe. intros m Hin Heq.
      destruct (discovered_mapping _ _ _ _ _ _ _ _ Hd Hin)
        as (_ & _ & _ & _ & _ & _ & _ & Hloc & _).
      destruct (discovered_names _ _ _ _ _ _ _ _ Hd Hin) as [_ Hc].
      rewrite Hloc in Heq. apply join_inj_name in Heq as [Heq _]; done. }
    eexists. split.
    { apply discoverMappings_Ok. split; [| done]. rewrite <- HS. apply Hframe.
      intros m Hin Heq. rewrite Forall_forall in Hall.
      destruct (discovered_linked _ _ _ _ _ _ Hd Hin) as [t Ht].
      { apply isLinked_true. left. by apply Hall. }
      congruence. }
    rewrite Hlist.
    pose proof (discoverEntry_rescan home resolve fs fs' S (encodePrefix rp)
                  (encodePrefix lp) (listDir fs S)) as H2.
    rewrite <- Hms in H2. clear Hms Hlist.
    assert (forall m, m ∈ ms -> fs' !! localFullPath m = None) as Hnone.
    { intros m Hin. apply Hgone; [done |]. apply isLinked_true. left.
      rewrite Forall_forall in Hall. by apply Hall. }
    clear -H2 Hnone. induction H2 as [|m m2 l l2 [Hsame Hst] _ IH]; constructor.
    + split; [done |]. rewrite Hst. apply localStateOf_missing, existsSync_absent.
      apply Hnone. constructor.
    + apply IH. intros m' Hin. apply Hnone. by constructor.
Qed.
End Unlinking.

(** ** The properties on the example stores *)

Lemma detectRemotePrefix_example_single :
  detectRemotePrefixIn ["-home-user-proj"] = Some "-home-user".
Proof. reflexivity. Qed.

Lemma doLink_applies_policy_witness :
  exists fs0,
    ensureLocalRoot exampleHome fsMixed = (fs0, Ok tt) /\
    reconciles fs0 [mappingApp missing; mappingLib directory_exists] fsMixedLinked
      {| created := 1; updated := 0; skipped := 1 |}.
Proof.
  destruct (doLink_applies_policy exampleHome
              [mappingApp missing; mappingLib directory_exists]
              fsMixed fsMixedLinked
              {| created := 1; updated := 0; skipped := 1 |}) as [H _].
  - reflexivity.
  - repeat constructor.
  - apply H. compute_done.
Defined.

Lemma doLink_counts_every_mapping_witness :
  let r := {| created := 1; updated := 0; skipped := 1 |} in
  let ms := [mappingApp missing; mappingLib directory_exists] in
  created r + updated r + skipped r = length ms /\
  created r = countState missing ms /\
  updated r = countState symlink_wrong ms /\
  skipped r = countState symlink_correct ms + countState directory_exists ms.
Proof.
  apply (doLink_counts_every_mapping exampleHome
           [mappingApp missing; mappingLib directory_exists] fsMixed fsMixedLinked).
  compute_done.
Defined.




(** C4.  A local entry that is a symbolic link whose target is gone does
    not exist for [existsSync], so [discoverMappings] classifies it
    [missing] although [lstatSync] sees a symbolic link whose target
    differs from the source path; [link] then throws [EEXIST] on it and
    repairs nothing. *)
Theorem discover_dangling_link_is_missing :
  lstatSync fsStale (localFullPath (mappingApp missing))
  = Ok (Link "/gone/-home-user-app") /\
  "/gone/-home-user-app" <> sourceFullPath (mappingApp missing) /\
  discoverMappings exampleHome (fun p => p) fsStale exampleSource
    "/home/user" "/mnt/x/home/user"
  = Ok [mappingApp missing; mappingLib symlink_wrong] /\
  cmdLink exampleHome (fun p => p) exampleSource "/home/user" "/mnt/x/home/user"
    fsStale
  = (fsStale, Throw EEXIST).
Proof.
  split; [reflexivity |]. split; [discriminate |].
  split; compute_done.
Qed.

Lemma discovery_rewrites_prefix_witness :
  exists ms,
    discoverMappings exampleHome (fun p => p) fsMixed exampleSource
      "/home/user" "/mnt/x/home/user" = Ok ms /\
    exists m, m ∈ ms /\ sourceDirName m = "-home-user-app" /\
              localDirName m = "-mnt-x-home-user" +:+ "-app".
Proof.
  destruct (proj2 (discovery_rewrites_prefix exampleHome (fun p => p)) fsMixed
              exampleSource "/home/user" "/mnt/x/home/user"
              (listDir fsMixed exampleSource))
    as (ms & Hd & Hkept & _).
  - compute_done.
  - exists ms. split; [exact Hd |].
    apply (Hkept "-home-user-app" Dir "-app").
    + vm_compute. apply list_elem_of_here.
    + left. reflexivity.
    + reflexivity.
Defined.

Lemma discovery_requires_source_witness :
  discoverMappings exampleHome (fun p => p) fsMixed "/nowhere"
    "/home/user" "/mnt/x/home/user" = Exit 1.
Proof.
  apply (proj1 (discovery_requires_source exampleHome (fun p => p) fsMixed "/nowhere"
                  "/home/user" "/mnt/x/home/user" eq_refl)).
Defined.

Lemma unlink_removes_links_witness :
  exists fs' ms',
    cmdUnlink exampleHome (fun p => p) exampleSource "/home/user" "/mnt/x/home/user"
      fsBridged = (fs', Ok 2) /\
    (cmdScan exampleHome (fun p => p) exampleSource "/home/user" "/mnt/x/home/user"
       fs').2 = Ok ms' /\
    Forall2 (fun m m' => sameEntry m m' /\ localState m' = missing)
      [mappingApp symlink_correct; mappingLib symlink_correct] ms'.
Proof.
  destruct (unlink_removes_links exampleHome (fun p => p) fsBridged exampleSource
              "/home/user" "/mnt/x/home/user"
              [mappingApp symlink_correct; mappingLib symlink_correct])
    as (fs' & removed & Hrun & -> & _ & _ & _ & _ & Hscan).
  - compute_done.
  - destruct Hscan as (ms' & Hs & Hall).
    + discriminate.
    + repeat constructor.
    + exists fs', ms'. split; [exact Hrun |]. split; [exact Hs | exact Hall].
Defined.

(** C8, as stated, fails on its last clause: when the source directory is
    the local root itself, a local link can be a source entry too.  Both
    mappings of [fsSelf] are [symlink_correct]; [unlink] removes both
    links, and the following [scan] no longer shows the mapping of
    ["-a-b-x"], whose source entry was one of the links removed. *)
Lemma unlink_in_place_hides_mapping :
  let S := localClaudeProjects exampleHome in
  let first st :=
    {| sourceDirName := "-a-b-b-x";
       sourceFullPath := "/h/.claude/projects/-a-b-b-x";
       localDirName := "-a-b-x";
       localFullPath := "/h/.claude/projects/-a-b-x";
       localState := st |} in
  let second st :=
    {| sourceDirName := "-a-b-x";
       sourceFullPath := "/h/.claude/projects/-a-b-x";
       localDirName := "-a-x";
       localFullPath := "/h/.claude/projects/-a-x";
       localState := st |} in
  discoverMappings exampleHome (fun p => p) fsSelf S "/a/b" "/a"
  = Ok [first symlink_correct; second symlink_correct] /\
  (cmdUnlink exampleHome (fun p => p) S "/a/b" "/a" fsSelf).2 = Ok 2 /\
  (cmdScan exampleHome (fun p => p) S "/a/b" "/a"
     (cmdUnlink exampleHome (fun p => p) S "/a/b" "/a" fsSelf).1).2
  = Ok [first missing] /\
  ~ (exists m', m' ∈ [first missing] /\ sourceDirName m' = "-a-b-x").
Proof.
  repeat split; try compute_done.
  intros (m' & Hin & Hname). apply list_elem_of_singleton in Hin. subst m'.
  discriminate.
Qed.

(** Running [link] twice outside the conditions of C2 as amended.  A
    source entry that is a link to nothing is linked by the first run and
    found [missing] again by the second, which throws. *)
Example link_twice_dangling_source :
  (cmdLink exampleHome (fun p => p) exampleSource "/home/user" "/mnt/x/home/user"
     fsDanglingSource).2
  = Ok {| created := 1; updated := 0; skipped := 0 |} /\
  (cmdLink exampleHome (fun p => p) exampleSource "/home/user" "/mnt/x/home/user"
     (cmdLink exampleHome (fun p => p) exampleSource "/home/user" "/mnt/x/home/user"
        fsDanglingSource).1).2
  = Throw EEXIST.
Proof. split; compute_done. Qed.

(** When the local root is created inside the source directory, the second
    run finds it as a new source entry. *)
Example link_twice_nested_root :
  (cmdLink exampleHome (fun p => p) "/h/.claude" "pro" "x" fsNested).2
  = Ok {| created := 1; updated := 0; skipped := 0 |} /\
  (cmdLink exampleHome (fun p => p) "/h/.claude" "pro" "x"
     (cmdLink exampleHome (fun p => p) "/h/.claude" "pro" "x" fsNested).1).2
  = Ok {| created := 1; updated := 0; skipped := 1 |}.
Proof. split; compute_done. Qed.

(** A source directory named from the working directory gives links whose
    targets are looked up from the local root, where they are not found:
    the second run takes the local path for [missing] and throws. *)
Example link_twice_relative_source :
  (cmdLink exampleHome (fun p => p) "src" "/home/user" "/mnt/x/home/user"
     fsRelativeSource).2
  = Ok {| created := 1; updated := 0; skipped := 0 |} /\
  (cmdLink exampleHome (fun p => p) "src" "/home/user" "/mnt/x/home/user"
     (cmdLink exampleHome (fun p => p) "src" "/home/user" "/mnt/x/home/user"
        fsRelativeSource).1).2
  = Throw EEXIST.
Proof. split; compute_done. Qed.

(** ** More on link and unlink *)

Lemma unlinkSync_keeps_dir q p fs :
  fs !! p = Some Dir -> (unlinkSync q fs).1 !! p = Some Dir.
Proof.
  intros H. destruct (decide (q = p)) as [->|Hne].
  - unfold unlinkSync. by rewrite H.
  - by rewrite unlinkSync_lookup_other.
Qed.

Lemma symlinkSync_keeps target q p fs n :
  fs !! p = Some n -> (symlinkSync target q fs).1 !! p = Some n.
Proof.
  intros H. destruct (decide (q = p)) as [->|Hne].
  - unfold symlinkSync. by rewrite H.
  - by rewrite symlinkSync_lookup_other.
Qed.

Lemma linkEach_keeps_dir ms c u s fs p :
  fs !! p = Some Dir -> (linkEach ms c u s fs).1 !! p = Some Dir.
Proof.
  revert c u s fs. induction ms as [|m ms IH]; intros c u s fs H; [done |].
  simpl. destruct (localState m).
  - rewrite io_bind_store.
    pose proof (symlinkSync_keeps (sourceFullPath m) (localFullPath m) p fs Dir H) as Hs.
    destruct (symlinkSync _ _ fs) as [fs1 [[]|e|k]]; simpl in *; auto.
  - by apply IH.
  - rewrite io_bind_store.
    pose proof (unlinkSync_keeps_dir (localFullPath m) p fs H) as Hu.
    destruct (unlinkSync _ fs) as [fs1 [[]|e|k]]; simpl in *; try done.
    rewrite io_bind_store.
    pose proof (symlinkSync_keeps (sourceFullPath m) (localFullPath m) p fs1 Dir Hu) as Hs.
    destruct (symlinkSync _ _ fs1) as [fs2 [[]|e|k]]; simpl in *; auto.
  - by apply IH.
Qed.

Lemma ensureLocalRoot_keeps home fs p n :
  fs !! p = Some n -> (ensureLocalRoot home fs).1 !! p = Some n.
Proof.
  intros H. destruct (ensureLocalRoot_lookup home fs p) as [->|(E & _)]; congruence.
Qed.

(** X1.  [doLink] never removes or replaces a directory, whatever the
    mappings say and whether the run returns or throws. *)
Theorem doLink_keeps_directories home ms fs p :
  fs !! p = Some Dir -> (doLink home ms fs).1 !! p = Some Dir.
Proof.
  intros H. unfold doLink. rewrite io_bind_store.
  pose proof (ensureLocalRoot_keeps home fs p Dir H) as He.
  destruct (ensureLocalRoot home fs) as [fs0 [[]|e|k]]; simpl in *; try done.
  by apply linkEach_keeps_dir.
Qed.

Lemma linkEach_app ms1 ms2 c u s fs :
  linkEach (ms1 ++ ms2) c u s fs
  = match linkEach ms1 c u s fs with
    | (fs1, Ok r1) => linkEach ms2 (created r1) (updated r1) (skipped r1) fs1
    | (fs1, Throw e) => (fs1, Throw e)
    | (fs1, Exit k) => (fs1, Exit k)
    end.
Proof.
  revert c u s fs. induction ms1 as [|m ms1 IH]; intros c u s fs; [done |].
  simpl. destruct (localState m); unfold mbind, IO_bind.
  - destruct (symlinkSync _ _ fs) as [fs1 [[]|e|k]]; done.
  - apply IH.
  - destruct (unlinkSync _ fs) as [fs1 [[]|e|k]]; try done.
    destruct (symlinkSync _ _ fs1) as [fs2 [[]|e|k]]; done.
  - apply IH.
Qed.

Lemma doLink_app home ms1 ms2 fs :
  doLink home (ms1 ++ ms2) fs
  = match doLink home ms1 fs with
    | (fs1, Ok r1) => linkEach ms2 (created r1) (updated r1) (skipped r1) fs1
    | (fs1, Throw e) => (fs1, Throw e)
    | (fs1, Exit k) => (fs1, Exit k)
    end.
Proof.
  unfold doLink. rewrite !io_bind_store.
  destruct (ensureLocalRoot home fs) as [fs0 [[]|e|k]]; simpl; auto.
  apply linkEach_app.
Qed.

(** X2.  [doLink] has no rollback.  When the mappings before [m] have been
    reconciled and [m] cannot be, the exception of [m] ends the run, the
    store is the one the earlier mappings left, and the mappings after [m]
    are not looked at: a [missing] mapping whose local path is taken throws
    [EEXIST], a [symlink_wrong] mapping throws [EISDIR] on a directory and
    [ENOENT] on nothing. *)
Theorem doLink_stops_at_first_failure home ms1 m ms2 fs fs1 r1 :
  doLink home ms1 fs = (fs1, Ok r1) ->
  (localState m = missing -> is_Some (fs1 !! localFullPath m) ->
   doLink home (ms1 ++ m :: ms2) fs = (fs1, Throw EEXIST)) /\
  (localState m = symlink_wrong -> fs1 !! localFullPath m = Some Dir ->
   doLink home (ms1 ++ m :: ms2) fs = (fs1, Throw EISDIR)) /\
  (localState m = symlink_wrong -> fs1 !! localFullPath m = None ->
   doLink home (ms1 ++ m :: ms2) fs = (fs1, Throw ENOENT)).
Proof.
  intros H1. repeat split; intros Hst Hl; rewrite doLink_app, H1; simpl;
    rewrite Hst, io_bind_store.
  - destruct Hl as [n Hl]. unfold symlinkSync. by rewrite Hl.
  - unfold unlinkSync. by rewrite Hl.
  - unfold unlinkSync. by rewrite Hl.
Qed.

Lemma startsWith_join_absolute dir name :
  startsWith dir "/" = true -> startsWith (join dir name) "/" = true.
Proof. by destruct dir. Qed.

(** A link to a directory given by an absolute path is there for
    [existsSync]. *)
Lemma existsSync_link_to_directory fs p target :
  fs !! p = Some (Link target) -> startsWith target "/" = true ->
  fs !! target = Some Dir -> existsSync fs p = true.
Proof.
  intros Hp Ha Ht. apply existsSync_true. unfold MAXSYMLINKS.
  rewrite (follow_Link _ _ _ _ Hp), (targetPath_absolute _ _ Ha).
  by rewrite (follow_lookup_nonlink _ _ _ Dir).
Qed.

(** X3.  For an absolute source path and local prefix: after a [link] that
    returns, every mapping it created or updated whose source entry is a
    directory holds a link to its source path, is there for [existsSync],
    and is classified [symlink_correct] by the next discovery. *)
Theorem link_leaves_correct_links home resolve fs S rp lp ms fs1 r m :
  startsWith S "/" = true ->
  startsWith lp "/" = true ->
  discoverMappings home resolve fs S rp lp = Ok ms ->
  cmdLink home resolve S rp lp fs = (fs1, Ok r) ->
  m ∈ ms ->
  localState m = missing \/ localState m = symlink_wrong ->
  fs !! sourceFullPath m = Some Dir ->
  readlinkSync fs1 (localFullPath m) = Ok (sourceFullPath m) /\
  existsSync fs1 (localFullPath m) = true /\
  localStateOf resolve fs1 (localFullPath m) (sourceFullPath m) = symlink_correct.
Proof.
  intros Habs _ Hd H1 Hin Hc Hsrc.
  rewrite (cmdLink_discovered _ _ _ _ _ _ _ Hd) in H1.
  destruct (linked_changed _ _ _ _ _ _ _ _ _ Hd H1 m Hin Hc) as [Hl _].
  pose proof (linked_keeps_nonlink _ _ _ _ _ _ _ _ _ Hd H1 _ _ Hsrc eq_refl) as Hs.
  assert (existsSync fs1 (localFullPath m) = true) as He.
  { apply (existsSync_link_to_directory _ _ _ Hl); [| done].
    destruct (discovered_mapping _ _ _ _ _ _ _ _ Hd Hin)
      as (_ & _ & _ & _ & _ & _ & -> & _). by apply startsWith_join_absolute. }
  split; [unfold readlinkSync; by rewrite Hl |]. split; [done |].
  rewrite (localStateOf_linked _ _ _ _ _ Hl He). by rewrite bool_decide_eq_true_2.
Qed.

Lemma countState_filter st ms :
  countState st ms
  = length (List.filter (fun m => bool_decide (localState m = st)) ms).
Proof. done. Qed.

Lemma linkable_length ms :
  length (linkable ms) = countState missing ms + countState symlink_wrong ms.
Proof.
  unfold linkable, countState. induction ms as [|m ms IH]; simpl; [done |].
  destruct (localState m); simpl; lia.
Qed.

(** X4.  The preview of [scan] and of the wizard counts what [link] will
    do: the three lists partition the mappings, and when [link] returns on
    the same store, [created + updated] is the number of linkable mappings
    and [skipped] the number of linked ones plus the conflicts.  With
    nothing linkable, [link] changes no path other than the local root and
    the directories above it, and nothing at all when the local root
    exists. *)
Theorem preview_counts_what_link_does home resolve fs S rp lp ms :
  discoverMappings home resolve fs S rp lp = Ok ms ->
  length (linkable ms) + length (linked ms) + length (conflicts ms) = length ms /\
  (forall fs1 r,
      cmdLink home resolve S rp lp fs = (fs1, Ok r) ->
      created r + updated r = length (linkable ms) /\
      skipped r = length (linked ms) + length (conflicts ms)) /\
  (linkable ms = [] ->
   (forall p,
       p ∉ ancestors (localClaudeProjects home) ++ [localClaudeProjects home] ->
       (cmdLink home resolve S rp lp fs).1 !! p = fs !! p) /\
   (existsSync fs (localClaudeProjects home) = true ->
    (cmdLink home resolve S rp lp fs).1 = fs)).
Proof.
  intros Hd. rewrite (cmdLink_discovered _ _ _ _ _ _ _ Hd).
  assert (length (linked ms) = countState symlink_correct ms) as Hl by done.
  assert (length (conflicts ms) = countState directory_exists ms) as Hc by done.
  rewrite Hl, Hc, linkable_length. split; [| split].
  - pose proof (tally_total ms) as Ht. simpl in Ht. lia.
  - intros fs1 r H. apply doLink_tally in H as ->. simpl. done.
  - intros Hnone.
    assert (forall m, m ∈ ms -> changes m -> False) as Hno.
    { intros m Hin Hch.
      assert (m ∈ linkable ms) as Hm; [| rewrite Hnone in Hm; by apply elem_of_nil in Hm].
      unfold linkable. apply list_elem_of_In, filter_In.
      split; [by apply list_elem_of_In |]. destruct Hch as [-> | ->]; done. }
    split.
    + intros p Hp. apply doLink_lookup_other; [done |].
      intros m Hin Hch. by destruct (Hno m Hin Hch).
    + intros He. unfold doLink, ensureLocalRoot. rewrite io_bind_store, He. simpl.
      rewrite linkEach_settled; [done |]. apply Forall_forall. intros m Hin.
      destruct (settled_or_changes m) as [|Hch]; [done |]. by destruct (Hno m Hin Hch).
Qed.

Lemma isLinked_dec_Exists (ms : list ProjectMapping) (p : string) :
  (exists m, m ∈ ms /\ isLinked (localState m) = true /\ localFullPath m = p) \/
  (forall m, m ∈ ms -> isLinked (localState m) = true -> localFullPath m <> p).
Proof.
  destruct (decide (Exists (fun m => isLinked (localState m) = true
                                     /\ localFullPath m = p) ms)) as [H|H].
  - left. apply Exists_exists in H as (m & Hin & Hl & Hp). eauto.
  - right. intros m Hin Hl Hp. apply H, Exists_exists. eauto.
Qed.

(** X5.  [unlink] removes nothing but symbolic links: on every input and
    however the command ends, each path of the store holds what it held
    before, or held a symbolic link and is gone. *)
Theorem unlink_removes_only_links home resolve S rp lp fs p :
  (cmdUnlink home resolve S rp lp fs).1 !! p = fs !! p \/
  (exists target, fs !! p = Some (Link target) /\
                  (cmdUnlink home resolve S rp lp fs).1 !! p = None).
Proof.
  destruct (discoverMappings home resolve fs S rp lp) as [ms|e|k] eqn:Hd.
  - rewrite (cmdUnlink_discovered _ _ _ _ _ _ _ Hd).
    pose proof (discovered_local_NoDup _ _ _ _ _ _ _ Hd) as Hnd.
    assert (forall m, m ∈ ms -> isLinked (localState m) = true ->
              exists t, fs !! localFullPath m = Some (Link t)) as Hlinks
      by (intros m Hin Hl; eapply discovered_linked; eauto).
    destruct (unlinkEach_run ms 0 fs Hnd Hlinks) as (fs' & Hrun & Hgone & Hkeep & _).
    rewrite Hrun. simpl.
    destruct (isLinked_dec_Exists ms p) as [(m & Hin & Hl & <-)|Hno].
    + right. destruct (Hlinks m Hin Hl) as [t Ht]. exists t. split; [done |].
      by apply Hgone.
    + left. by apply Hkeep.
  - left. unfold cmdUnlink, liftRead, mbind, IO_bind. simpl. by rewrite Hd.
  - left. unfold cmdUnlink, liftRead, mbind, IO_bind. simpl. by rewrite Hd.
Qed.

Lemma unlinkEach_unlinked ms k fs :
  Forall (fun m => isLinked (localState m) = false) ms ->
  unlinkEach ms k fs = (fs, Ok k).
Proof.
  intros H. revert k. induction H as [|m ms Hm _ IH]; intros k; simpl; [done |].
  by rewrite Hm.
Qed.

Section AfterUnlink.
Variable home : string.
Variable resolve : string -> string.
Variables (fs fs' : FS) (S rp lp : string) (ms : list ProjectMapping) (k : nat).
Hypothesis Hdiscovered : discoverMappings home resolve fs S rp lp = Ok ms.
Hypothesis Hunlinked : unlinkEach ms 0 fs = (fs', Ok k).

Lemma unlinked_store :
  k = countLinked ms /\
  (forall m, m ∈ ms -> isLinked (localState m) = true ->
             fs' !! localFullPath m = None) /\
  (forall p, (forall m, m ∈ ms -> isLinked (localState m) = true ->
                        localFullPath m <> p) ->
             fs' !! p = fs !! p).
Proof.
  pose proof (discovered_local_NoDup _ _ _ _ _ _ _ Hdiscovered) as Hnd.
  assert (forall m, m ∈ ms -> isLinked (localState m) = true ->
            exists t, fs !! localFullPath m = Some (Link t)) as Hlinks
    by (intros m Hin Hl; eapply discovered_linked; eauto).
  destruct (unlinkEach_run ms 0 fs Hnd Hlinks) as (fs2 & Hrun & Hgone & Hkeep & _).
  rewrite Hunlinked in Hrun. injection Hrun as <- ->. done.
Qed.

Lemma unlinked_submap x n : fs' !! x = Some n -> fs !! x = Some n.
Proof.
  destruct unlinked_store as (_ & Hgone & Hkeep). intros H.
  destruct (isLinked_dec_Exists ms x) as [(m & Hin & Hl & <-)|Hno].
  - rewrite Hgone in H; done.
  - by rewrite <- Hkeep.
Qed.

Lemma unlinked_keeps_nonlink x n :
  fs !! x = Some n -> isSymbolicLink n = false -> fs' !! x = Some n.
Proof.
  destruct unlinked_store as (_ & _ & Hkeep). intros H Hn. rewrite <- H.
  apply Hkeep. intros m Hin Hl Heq.
  destruct (discovered_linked _ _ _ _ _ _ _ _ Hdiscovered Hin Hl) as [t Ht].
  rewrite Heq, H in Ht. injection Ht as ->. done.
Qed.

Hypothesis Hapart : S <> localClaudeProjects home.

Lemma unlinked_listing : listDir fs' S = listDir fs S.
Proof.
  destruct unlinked_store as (_ & _ & Hkeep).
  apply listDir_ext. intros name Hname. apply Hkeep. intros m Hin _ Heq.
  destruct (discovered_mapping _ _ _ _ _ _ _ _ Hdiscovered Hin)
    as (_ & _ & _ & _ & _ & _ & _ & Hloc & _).
  destruct (discovered_names _ _ _ _ _ _ _ _ Hdiscovered Hin) as [_ Hc].
  rewrite Hloc in Heq. apply join_inj_name in Heq as [Heq _]; done.
Qed.

Lemma unlinked_rescan :
  exists ms2,
    discoverMappings home resolve fs' S rp lp = Ok ms2 /\
    Forall2 (fun m m2 => sameEntry m m2 /\
                         localState m2
                         = localStateOf resolve fs' (localFullPath m) (sourceFullPath m))
      ms ms2.
Proof.
  pose proof Hdiscovered as Hd. apply discoverMappings_Ok in Hd as [HS Hms].
  eexists. split.
  { apply discoverMappings_Ok. split; [| done].
    by apply unlinked_keeps_nonlink. }
  rewrite unlinked_listing. rewrite Hms at 1. apply discoverEntry_rescan.
Qed.

Lemma unlinked_state m :
  m ∈ ms ->
  isLinked (localStateOf resolve fs' (localFullPath m) (sourceFullPath m)) = false.
Proof.
  intros Hin. destruct unlinked_store as (_ & Hgone & Hkeep).
  destruct (discovered_mapping _ _ _ _ _ _ _ _ Hdiscovered Hin)
    as (_ & _ & _ & _ & _ & _ & _ & _ & Hst).
  destruct (localState m) eqn:E; symmetry in Hst.
  - apply localStateOf_missing in Hst.
    assert (localStateOf resolve fs' (localFullPath m) (sourceFullPath m) = missing)
      as -> ; [| done].
    apply localStateOf_missing. apply (existsSync_submap fs); [| done].
    apply unlinked_submap.
  - assert (localStateOf resolve fs' (localFullPath m) (sourceFullPath m) = missing)
      as -> ; [| done].
    apply localStateOf_missing, existsSync_absent, Hgone; [done |]. by rewrite E.
  - assert (localStateOf resolve fs' (localFullPath m) (sourceFullPath m) = missing)
      as -> ; [| done].
    apply localStateOf_missing, existsSync_absent, Hgone; [done |]. by rewrite E.
  - apply localStateOf_directory_exists in Hst as (n & Hn & Hnl).
    assert (localStateOf resolve fs' (localFullPath m) (sourceFullPath m)
            = directory_exists) as -> ; [| done].
    apply localStateOf_directory_exists. exists n. split; [| done].
    by apply unlinked_keeps_nonlink.
Qed.
End AfterUnlink.

(** X6.  [unlink] is idempotent: when the source directory is not the local
    root and a first [unlink] has returned, a second one on the store it
    left removes nothing and changes nothing. *)
Theorem unlink_twice_removes_nothing home resolve fs S rp lp fs' removed :
  S <> localClaudeProjects home ->
  cmdUnlink home resolve S rp lp fs = (fs', Ok removed) ->
  cmdUnlink home resolve S rp lp fs' = (fs', Ok 0).
Proof.
  intros Hapart H1.
  destruct (discoverMappings home resolve fs S rp lp) as [ms|e|c] eqn:Hd;
    [| unfold cmdUnlink, liftRead, mbind, IO_bind in H1; simpl in H1;
       rewrite Hd in H1; done ..].
  rewrite (cmdUnlink_discovered _ _ _ _ _ _ _ Hd) in H1.
  destruct (unlinked_rescan _ _ _ _ _ _ _ _ _ Hd H1 Hapart) as (ms2 & Hd2 & Hall).
  rewrite (cmdUnlink_discovered _ _ _ _ _ _ _ Hd2).
  apply unlinkEach_unlinked.
  eapply Forall2_Forall_r; [exact Hall |]. intros m m2 Hin [_ Hst]. simpl.
  rewrite Hst. exact (unlinked_state home resolve fs fs' S rp lp ms removed Hd H1 m Hin).
Qed.

(** ** Link, then unlink *)

Lemma Forall2_elem_r {A B} (R : A -> B -> Prop) l l2 y :
  Forall2 R l l2 -> y ∈ l2 -> exists x, x ∈ l /\ R x y.
Proof.
  induction 1 as [|x y' l l2 Hxy _ IH]; intros Hin; [by apply elem_of_nil in Hin |].
  apply elem_of_cons in Hin as [->|Hin].
  - exists x. split; [constructor | done].
  - destruct (IH Hin) as (x' & Hx & HR). exists x'. split; [by constructor | done].
Qed.

Lemma Forall2_elem_l {A B} (R : A -> B -> Prop) l l2 x :
  Forall2 R l l2 -> x ∈ l -> exists y, y ∈ l2 /\ R x y.
Proof.
  induction 1 as [|x' y l l2 Hxy _ IH]; intros Hin; [by apply elem_of_nil in Hin |].
  apply elem_of_cons in Hin as [->|Hin].
  - exists y. split; [constructor | done].
  - destruct (IH Hin) as (y' & Hy & HR). exists y'. split; [by constructor | done].
Qed.

Lemma countLinked_rescan (R : ProjectMapping -> ProjectMapping -> Prop) ms ms2 :
  Forall2 R ms ms2 ->
  (forall m m2, m ∈ ms -> R m m2 ->
                isLinked (localState m2) = bool_decide (localState m = missing)) ->
  countLinked ms2 = countState missing ms.
Proof.
  induction 1 as [|m m2 ms ms2 Hr _ IH]; intros H; [done |].
  rewrite countLinked_cons, IH by (intros x y Hin; apply H; by constructor).
  rewrite (H m m2) by (done || constructor).
  unfold countState. simpl. by destruct (bool_decide (localState m = missing)).
Qed.

Section LinkThenUnlink.
Variable home : string.
Variable resolve : string -> string.
Variables (fs fs1 : FS) (S rp lp : string) (ms : list ProjectMapping)
          (r : LinkResult).
Hypothesis Hapart : S <> localClaudeProjects home.
Hypothesis Habsolute : startsWith S "/" = true.
Hypothesis Hroot : existsSync fs (localClaudeProjects home) = true.
Hypothesis Hdiscovered : discoverMappings home resolve fs S rp lp = Ok ms.
Hypothesis Hfresh :
  Forall (fun m => localState m = missing \/ localState m = directory_exists) ms.
Hypothesis Hsources : forall m, m ∈ ms -> fs !! sourceFullPath m = Some Dir.
Hypothesis Hlinked : doLink home ms fs = (fs1, Ok r).

Lemma fresh_reconciles : reconciles fs ms fs1 r.
Proof.
  pose proof Hlinked as H. apply doLink_Ok in H as (fs0 & H0 & H).
  apply ensureLocalRoot_Ok in H0 as [[_ ->]|[Hn _]].
  - apply linkEach_reconciles in H as (r0 & Hr & ->). by destruct r0.
  - by rewrite Hroot in Hn.
Qed.

Lemma fresh_state m :
  m ∈ ms ->
  (localState m = missing /\ fs !! localFullPath m = None /\
   fs1 !! localFullPath m = Some (Link (sourceFullPath m)) /\
   localStateOf resolve fs1 (localFullPath m) (sourceFullPath m) = symlink_correct)
  \/ (localState m = directory_exists /\
      localStateOf resolve fs1 (localFullPath m) (sourceFullPath m)
      = directory_exists).
Proof.
  intros Hin. rewrite Forall_forall in Hfresh.
  pose proof (discovered_local_NoDup _ _ _ _ _ _ _ Hdiscovered) as Hnd.
  destruct (Hfresh m Hin) as [Hst|Hst].
  - left. destruct (reconciles_changed _ _ _ _ m fresh_reconciles Hnd Hin)
      as (Hl & Hnone & _); [by left |].
    split; [done |]. split; [by apply Hnone |]. split; [done |].
    assert (existsSync fs1 (localFullPath m) = true) as He.
    { apply (existsSync_link_to_directory _ _ _ Hl).
      - destruct (discovered_mapping _ _ _ _ _ _ _ _ Hdiscovered Hin)
          as (_ & _ & _ & _ & _ & _ & -> & _). by apply startsWith_join_absolute.
      - eapply linked_keeps_nonlink; eauto. }
    rewrite (localStateOf_linked _ _ _ _ _ Hl He). by rewrite bool_decide_eq_true_2.
  - right. split; [done |].
    destruct (discovered_mapping _ _ _ _ _ _ _ _ Hdiscovered Hin)
      as (_ & _ & _ & _ & _ & _ & _ & _ & Hcls).
    rewrite Hst in Hcls. symmetry in Hcls.
    apply localStateOf_directory_exists in Hcls as (n & Hn & Hnl).
    apply localStateOf_directory_exists. exists n. split; [| done].
    eapply linked_keeps_nonlink; eauto.
Qed.

Lemma fresh_rescan :
  exists ms2,
    discoverMappings home resolve fs1 S rp lp = Ok ms2 /\
    Forall2 (fun m m2 => sameEntry m m2 /\
                         localState m2
                         = localStateOf resolve fs1 (localFullPath m) (sourceFullPath m))
      ms ms2.
Proof.
  pose proof Hdiscovered as Hd. apply discoverMappings_Ok in Hd as [HS Hms].
  assert (listDir fs1 S = listDir fs S) as Hlist.
  { apply listDir_ext. intros name Hname.
    apply (reconciles_lookup_other _ _ _ _ _ fresh_reconciles).
    intros m Hin _ Heq.
    destruct (discovered_mapping _ _ _ _ _ _ _ _ Hdiscovered Hin)
      as (_ & _ & _ & _ & _ & _ & _ & Hloc & _).
    destruct (discovered_names _ _ _ _ _ _ _ _ Hdiscovered Hin) as [_ Hc].
    rewrite Hloc in Heq. apply join_inj_name in Heq as [Heq _]; done. }
  eexists. split.
  { apply discoverMappings_Ok. split; [| done].
    eapply linked_keeps_nonlink; eauto. }
  rewrite Hlist. rewrite Hms at 1. apply discoverEntry_rescan.
Qed.

Lemma fresh_unlink :
  cmdUnlink home resolve S rp lp fs1 = (fs, Ok (created r)).
Proof.
  destruct fresh_rescan as (ms2 & Hd2 & Hall).
  rewrite (cmdUnlink_discovered _ _ _ _ _ _ _ Hd2).
  pose proof (discovered_local_NoDup _ _ _ _ _ _ _ Hd2) as Hnd2.
  assert (forall m, m ∈ ms2 -> isLinked (localState m) = true ->
            exists t, fs1 !! localFullPath m = Some (Link t)) as Hlinks
    by (intros m Hin Hl; eapply discovered_linked; eauto).
  destruct (unlinkEach_run ms2 0 fs1 Hnd2 Hlinks) as (fs2 & Hrun & Hgone & Hkeep & _).
  rewrite Hrun. simpl.
  assert (countLinked ms2 = created r) as ->.
  { rewrite (countLinked_rescan _ _ _ Hall).
    - by rewrite (doLink_tally _ _ _ _ _ Hlinked).
    - intros m m2 Hin [_ Hst]. rewrite Hst.
      destruct (fresh_state m Hin) as [(-> & _ & _ & ->)|[-> ->]]; done. }
  f_equal. apply map_eq. intros p.
  destruct (isLinked_dec_Exists ms2 p) as [(m2 & Hin2 & Hl & <-)|Hno].
  - rewrite (Hgone m2 Hin2 Hl).
    destruct (Forall2_elem_r _ _ _ _ Hall Hin2) as (m & Hin & [Hsame Hst]).
    destruct Hsame as (_ & _ & _ & ->).
    destruct (fresh_state m Hin) as [(_ & Hnone & _)|[_ Hdir]]; [done |].
    rewrite Hst, Hdir in Hl. done.
  - rewrite (Hkeep p Hno).
    apply (reconciles_lookup_other _ _ _ _ _ fresh_reconciles).
    intros m Hin Hch Heq.
    destruct (Forall2_elem_l _ _ _ _ Hall Hin) as (m2 & Hin2 & [Hsame Hst]).
    destruct Hsame as (_ & _ & _ & Hloc).
    apply (Hno m2 Hin2); [| by rewrite Hloc].
    rewrite Hst.
    destruct (fresh_state m Hin) as [(_ & _ & _ & ->)|[Hdir _]]; [done |].
    destruct Hch; congruence.
Qed.
End LinkThenUnlink.

(** X7.  [unlink] undoes [link].  On a store where the local root exists,
    the source directory is another directory given by an absolute path, no
    discovered mapping is linked yet and every source entry is a directory,
    a [link] that returns followed by [unlink] gives back the store
    exactly, and [unlink] reports as removed what [link] reported as
    created. *)
Theorem link_then_unlink_restores home resolve fs S rp lp ms fs1 r :
  S <> localClaudeProjects home ->
  startsWith S "/" = true ->
  existsSync fs (localClaudeProjects home) = true ->
  discoverMappings home resolve fs S rp lp = Ok ms ->
  Forall (fun m => localState m = missing \/ localState m = directory_exists) ms ->
  (forall m, m ∈ ms -> fs !! sourceFullPath m = Some Dir) ->
  cmdLink home resolve S rp lp fs = (fs1, Ok r) ->
  cmdUnlink home resolve S rp lp fs1 = (fs, Ok (created r)).
Proof.
  intros Hapart Habs Hroot Hd Hfresh Hsrc H1.
  rewrite (cmdLink_discovered _ _ _ _ _ _ _ Hd) in H1.
  by apply (fresh_unlink home resolve fs fs1 S rp lp ms r).
Qed.

(** ** Prefixes: encoding, decoding and the order of the listing *)

Lemma replaceAll_app a b s p :
  replaceAll a b (s +:+ p) = replaceAll a b s +:+ replaceAll a b p.
Proof. induction s as [|c s IH]; simpl; [done |]. by rewrite IH. Qed.

Lemma replaceAll_undo a b s :
  contains b s = false -> replaceAll b a (replaceAll a b s) = s.
Proof.
  induction s as [|c s IH]; simpl; [done |].
  destruct (Ascii.eqb_spec c b) as [->|Hcb]; [done |]. intros Hs.
  rewrite (IH Hs). destruct (Ascii.eqb_spec c a) as [->|Hca].
  - by rewrite Ascii.eqb_refl.
  - by destruct (Ascii.eqb_spec c b).
Qed.

Lemma contains_prefix c p s :
  isPrefixOf p s -> contains c s = false -> contains c p = false.
Proof.
  intros [r ->]. rewrite contains_app. by intros [? _]%orb_false_iff.
Qed.

Lemma isPrefixOf_antisym s p : isPrefixOf s p -> isPrefixOf p s -> s = p.
Proof.
  intros H1 H2. pose proof (isPrefixOf_length _ _ H2) as Hl.
  destruct H1 as [r ->]. rewrite append_length in Hl.
  destruct r; [by rewrite append_nil_r | simpl in Hl; lia].
Qed.

Lemma isLongestCommonPrefix_unique c d names names' :
  names ≡ₚ names' ->
  isLongestCommonPrefix c names -> isLongestCommonPrefix d names' -> c = d.
Proof.
  intros Hp [Hc Hcmax] [Hd Hdmax]. apply isPrefixOf_antisym.
  - apply Hdmax. by rewrite <- Hp.
  - apply Hcmax. by rewrite Hp.
Qed.

Lemma filter_Permutation_list {A} (f : A -> bool) l l' :
  l ≡ₚ l' -> List.filter f l ≡ₚ List.filter f l'.
Proof.
  induction 1 as [|x l l' _ IH|x y l|l l' l'' _ IH1 _ IH2]; simpl.
  - done.
  - destruct (f x); [by constructor | done].
  - destruct (f x), (f y); try done. apply perm_swap.
  - by etrans.
Qed.

Lemma filter_startsWith listing :
  Forall (fun n => startsWith n "-" = true)
    (List.filter (fun e => startsWith e "-") listing).
Proof. apply Forall_forall. intros n Hn. apply list_elem_of_In, (filter_In (fun e => startsWith e "-")) in Hn. tauto. Qed.

Lemma trimLastHyphen_prefix c : isPrefixOf (trimLastHyphen c) c.
Proof.
  rewrite trimLastHyphen_lastPos.
  destruct (lastPos "-" c) as [[|k]|]; try apply isPrefixOf_refl. apply take_prefix.
Qed.

(** The prefix returned is a prefix of every listed name that begins with
    the reserved character, and has at least three characters. *)
Lemma detected_common_prefix listing p :
  detectRemotePrefixIn listing = Some p ->
  3 <= String.length p /\
  (exists n, n ∈ listing /\ startsWith n "-" = true) /\
  forall n, n ∈ listing -> startsWith n "-" = true -> isPrefixOf p n.
Proof.
  unfold detectRemotePrefixIn. intros H.
  destruct (List.filter (fun e => startsWith e "-") listing) as [|first rest] eqn:E;
    [done |].
  simpl in H.
  destruct (Nat.ltb_spec (String.length (trimLastHyphen (longestCommonPrefix first rest))) 3)
    as [|Hlen]; [done |].
  injection H as <-. split; [done |].
  assert (forall n, n ∈ first :: rest <-> n ∈ listing /\ startsWith n "-" = true) as Hin.
  { intros n. rewrite <- E, !list_elem_of_In. apply (filter_In (fun e => startsWith e "-")). }
  split.
  - exists first. apply Hin. constructor.
  - intros n Hn Hs. destruct (longestCommonPrefix_spec first rest) as [Hall _].
    rewrite Forall_forall in Hall.
    eapply isPrefixOf_trans; [apply trimLastHyphen_prefix |].
    apply Hall, Hin. done.
Qed.

Lemma detectRemotePrefix_Ok fs S p :
  detectRemotePrefix fs S = Ok p <->
  fs !! S = Some Dir /\ p = detectRemotePrefixIn (map fst (listDir fs S)).
Proof.
  unfold detectRemotePrefix.
  destruct (readdirSync fs S) as [entries|e|c] eqn:E.
  - apply readdirSync_Ok in E as [HS ->]. split.
    + intros [= <-]. done.
    + intros [_ ->]. done.
  - split; [done |]. intros [HS _]. unfold readdirSync in E. by rewrite HS in E.
  - split; [done |]. intros [HS _]. unfold readdirSync in E. by rewrite HS in E.
Qed.

Lemma detected_no_separator fs S p :
  detectRemotePrefix fs S = Ok (Some p) -> contains "/" p = false.
Proof.
  intros [HS Hp]%detectRemotePrefix_Ok. symmetry in Hp.
  apply detected_common_prefix in Hp as (_ & (n & Hn & Hs) & Hpre).
  apply (contains_prefix _ _ n); [by apply Hpre |].
  apply list_elem_of_fmap in Hn as ([name nd] & -> & Hin).
  by apply listDir_elem in Hin as (_ & _ & ?).
Qed.

(** X8.  A project directory is mapped from its path on the remote system to
    the same path under the local mount: when a discovered mapping's source
    entry is the encoding of [remotePrefix] followed by [rest], its local
    name is the encoding of [localPrefix] followed by [rest]. *)
Theorem discovery_maps_remote_path_to_local_path
    home resolve fs S rp lp ms m rest :
  discoverMappings home resolve fs S rp lp = Ok ms ->
  m ∈ ms ->
  sourceDirName m = encodePrefix (rp +:+ rest) ->
  localDirName m = encodePrefix (lp +:+ rest) /\
  localFullPath m = join (localClaudeProjects home) (encodePrefix (lp +:+ rest)).
Proof.
  intros Hd Hin Hname.
  destruct (discovered_mapping _ _ _ _ _ _ _ _ Hd Hin)
    as (n & suffix & _ & _ & Hsrc & Hloc & _ & Hfull & _).
  unfold encodePrefix in *. rewrite replaceAll_app in Hname |- *.
  rewrite Hname in Hsrc. apply append_inv_head in Hsrc as <-.
  rewrite Hfull, Hloc. done.
Qed.

(** X9.  The wizard's decoding of a detected prefix encodes back to it: the
    prefix read off a listed directory has no path separator, so replacing
    the reserved character by the separator and encoding again gives the
    detected prefix. *)
Theorem wizard_prefix_round_trip fs S p :
  detectRemotePrefix fs S = Ok (Some p) ->
  encodePrefix (wizardRemotePrefix p) = p.
Proof.
  intros H. apply replaceAll_undo. by eapply detected_no_separator.
Qed.

(** X10.  With the prefix the wizard takes from [detectRemotePrefix], the
    discovery that follows returns, and it finds every project of the source
    directory: each directory or link whose name begins with the reserved
    character has a mapping, named after the local prefix and the rest of
    the entry's name. *)
Theorem wizard_discovers_every_project home resolve fs S lp p :
  detectRemotePrefix fs S = Ok (Some p) ->
  exists ms,
    discoverMappings home resolve fs S (wizardRemotePrefix p) lp = Ok ms /\
    forall name n,
      (name, n) ∈ listDir fs S ->
      startsWith name "-" = true ->
      isDirectory n = true \/ isSymbolicLink n = true ->
      exists m, m ∈ ms /\ sourceDirName m = name /\
                localDirName m
                = encodePrefix lp +:+ sliceFrom name (String.length p).
Proof.
  intros H. pose proof (detected_no_separator _ _ _ H) as Hsep.
  apply detectRemotePrefix_Ok in H as [HS Hp]. symmetry in Hp.
  apply detected_common_prefix in Hp as (_ & _ & Hpre).
  eexists. split; [by apply discoverMappings_Ok |].
  intros name n Hin Hs Hn.
  assert (encodePrefix (wizardRemotePrefix p) = p) as Henc by by apply replaceAll_undo.
  rewrite Henc.
  assert (startsWith name p = true) as Hsp.
  { apply startsWith_prefix, Hpre; [| done].
    apply list_elem_of_fmap. by exists (name, n). }
  eexists. split.
  - apply list_elem_of_omap. exists (name, n). split; [done |].
    apply discoverEntry_Some. split; [done |]. split; [done |]. reflexivity.
  - done.
Qed.

(** X11.  The detected prefix does not depend on the order in which the
    directory is listed. *)
Theorem detectRemotePrefixIn_order_independent listing listing' :
  listing ≡ₚ listing' ->
  detectRemotePrefixIn listing = detectRemotePrefixIn listing'.
Proof.
  intros Hp. apply (filter_Permutation_list (fun e => startsWith e "-")) in Hp.
  unfold detectRemotePrefixIn.
  pose proof (filter_startsWith listing) as Hall.
  pose proof (filter_startsWith listing') as Hall'.
  destruct (List.filter (fun e => startsWith e "-") listing) as [|first rest];
    destruct (List.filter (fun e => startsWith e "-") listing') as [|first' rest'].
  - done.
  - by apply Permutation_nil_cons in Hp.
  - symmetry in Hp. by apply Permutation_nil_cons in Hp.
  - simpl.
    by rewrite (isLongestCommonPrefix_unique _ _ _ _ Hp
                  (longestCommonPrefix_spec first rest)
                  (longestCommonPrefix_spec first' rest')).
Qed.

(** ** Scanning for mounted installations *)

Lemma fold_left_bind {A B} (f : list B -> A -> list B) (g : A -> list B) l acc :
  (forall acc x, f acc x = acc ++ g x) ->
  fold_left f l acc = acc ++ (l ≫= g).
Proof.
  intros Hf. revert acc. induction l as [|x l IH]; intros acc; simpl.
  - by rewrite app_nil_r.
  - by rewrite IH, Hf, <- app_assoc.
Qed.

Section Scanning.
Variable home : string.
Variable resolve : string -> string.
Variable fs : FS.
Variable excludePath : string.

Abbreviation found base := (checkForClaudeUnder resolve fs base excludePath []).

Lemma checkForClaudeUnder_app base results :
  checkForClaudeUnder resolve fs base excludePath results = results ++ found base.
Proof.
  unfold checkForClaudeUnder.
  repeat (case_match; simpl; rewrite ?app_nil_r; try done).
Qed.

Lemma found_elem base r :
  r ∈ found base <->
  let claudeProjects := join (join base ".claude") "projects" in
  let entries :=
    List.filter (fun e => startsWith e "-") (map fst (listDir fs claudeProjects)) in
  fs !! claudeProjects = Some Dir /\
  resolve claudeProjects <> resolve excludePath /\
  entries <> [] /\
  r = {| projectsPath := claudeProjects; localHome := resolve base;
         projectCount := length entries |}.
Proof.
  unfold checkForClaudeUnder. simpl.
  set (cp := join (join base ".claude") "projects").
  destruct (fs !! cp) as [[| |t]|] eqn:Hcp.
  - rewrite (existsSync_nonlink _ _ Dir); [| done | done]. simpl.
    unfold readdirSync. rewrite Hcp.
    destruct (decide (resolve cp = resolve excludePath)) as [He|He].
    { rewrite bool_decide_eq_true_2 by done. split; [by intros ?%elem_of_nil | tauto]. }
    rewrite bool_decide_eq_false_2 by done.
    destruct (List.filter _ _) as [|e es] eqn:E; simpl.
    + split; [by intros ?%elem_of_nil | tauto].
    + rewrite list_elem_of_singleton. split; [by intros -> | tauto].
  - split; [| by intros [? _]]. intros Hr. exfalso.
    unfold readdirSync in Hr. rewrite Hcp in Hr.
    repeat case_match; by apply elem_of_nil in Hr.
  - split; [| by intros [? _]]. intros Hr. exfalso.
    unfold readdirSync in Hr. rewrite Hcp in Hr.
    repeat case_match; by apply elem_of_nil in Hr.
  - split; [| by intros [? _]]. intros Hr. exfalso.
    rewrite existsSync_absent in Hr by done. by apply elem_of_nil in Hr.
Qed.

Lemma scanDepth3_app p2 results :
  scanDepth3 resolve fs excludePath p2 results = results ++ below3 resolve fs excludePath p2.
Proof.
  apply fold_left_bind. intros acc d3. simpl.
  destruct (isDir fs (join p2 d3)); simpl; [| by rewrite app_nil_r].
  apply checkForClaudeUnder_app.
Qed.

Lemma scanDepth2_app p1 results :
  scanDepth2 resolve fs excludePath p1 results = results ++ below2 resolve fs excludePath p1.
Proof.
  apply fold_left_bind. intros acc d2. simpl.
  destruct (isDir fs (join p1 d2)); simpl; [| by rewrite app_nil_r].
  by rewrite scanDepth3_app, checkForClaudeUnder_app, <- app_assoc.
Qed.

Lemma scanDepth1_app root results :
  scanDepth1 resolve fs excludePath root results = results ++ below1 resolve fs excludePath root.
Proof.
  apply fold_left_bind. intros acc d1. simpl.
  destruct (isDir fs (join root d1)); simpl; [| by rewrite app_nil_r].
  by rewrite scanDepth2_app, checkForClaudeUnder_app, <- app_assoc.
Qed.

Lemma below3_elem p2 r :
  r ∈ below3 resolve fs excludePath p2 <-> exists base, mounted fs 1 p2 base /\ r ∈ found base.
Proof.
  unfold below3. rewrite list_elem_of_bind. split.
  - intros (d3 & Hr & Hd). destruct (isDir fs (join p2 d3)) eqn:E;
      [| by apply elem_of_nil in Hr].
    exists (join p2 d3). split; [| done].
    eapply mounted_step; eauto. constructor.
  - intros (base & Hm & Hr). inversion Hm as [|? ? d ? Hd Hdir Hm']; subst.
    inversion Hm'; subst. exists d. by rewrite Hdir.
Qed.

Lemma below2_elem p1 r :
  r ∈ below2 resolve fs excludePath p1 <->
  exists depth base, 1 <= depth <= 2 /\ mounted fs depth p1 base /\ r ∈ found base.
Proof.
  unfold below2. rewrite list_elem_of_bind. split.
  - intros (d2 & Hr & Hd). destruct (isDir fs (join p1 d2)) eqn:E;
      [| by apply elem_of_nil in Hr].
    apply elem_of_app in Hr as [Hr|Hr].
    + exists 1, (join p1 d2). split; [lia |]. split; [| done].
      eapply mounted_step; eauto. constructor.
    + apply below3_elem in Hr as (base & Hm & Hr).
      exists 2, base. split; [lia |]. split; [| done].
      eapply mounted_step; eauto.
  - intros (depth & base & Hdepth & Hm & Hr).
    inversion Hm as [|n ? d ? Hd Hdir Hm']; subst; [lia |].
    exists d. split; [| done]. rewrite Hdir. apply elem_of_app.
    destruct n as [|n].
    + inversion Hm'; subst. by left.
    + right. apply below3_elem. exists base. split; [| done].
      by replace n with 0 in Hm' by lia.
Qed.

Lemma below1_elem root r :
  r ∈ below1 resolve fs excludePath root <->
  exists depth base, 1 <= depth <= 3 /\ mounted fs depth root base /\ r ∈ found base.
Proof.
  unfold below1. rewrite list_elem_of_bind. split.
  - intros (d1 & Hr & Hd). destruct (isDir fs (join root d1)) eqn:E;
      [| by apply elem_of_nil in Hr].
    apply elem_of_app in Hr as [Hr|Hr].
    + exists 1, (join root d1). split; [lia |]. split; [| done].
      eapply mounted_step; eauto. constructor.
    + apply below2_elem in Hr as (depth & base & Hdepth & Hm & Hr).
      exists (S depth), base. split; [lia |]. split; [| done].
      eapply mounted_step; eauto.
  - intros (depth & base & Hdepth & Hm & Hr).
    inversion Hm as [|n ? d ? Hd Hdir Hm']; subst; [lia |].
    exists d. split; [| done]. rewrite Hdir. apply elem_of_app.
    destruct n as [|n].
    + inversion Hm'; subst. by left.
    + right. apply below2_elem. exists (S n), base. split; [lia | done].
Qed.
End Scanning.

Lemma scanForRemoteClaude_elem home resolve fs r :
  r ∈ scanForRemoteClaude home resolve fs <->
  exists root depth base,
    root ∈ searchRoots /\ existsSync fs root = true /\ 1 <= depth <= 3 /\
    mounted fs depth root base /\
    r ∈ checkForClaudeUnder resolve fs base (localClaudeProjects home) [].
Proof.
  unfold scanForRemoteClaude.
  rewrite (fold_left_bind _
             (fun root => if existsSync fs root
                          then below1 resolve fs (localClaudeProjects home) root
                          else [])).
  2:{ intros acc root. destruct (existsSync fs root); simpl;
        [apply scanDepth1_app | by rewrite app_nil_r]. }
  cbn [app]. rewrite list_elem_of_bind. split.
  - intros (root & Hr & Hroot). destruct (existsSync fs root) eqn:E;
      [| by apply elem_of_nil in Hr].
    apply below1_elem in Hr as (depth & base & ? & ? & ?).
    by exists root, depth, base.
  - intros (root & depth & base & Hroot & He & Hdepth & Hm & Hr).
    exists root. split; [| done]. rewrite He. apply below1_elem.
    by exists depth, base.
Qed.

(** X12.  Every source that [scanForRemoteClaude] reports can be used by the
    steps that follow it: it is not the local projects directory, it holds
    at least one project, [detectRemotePrefix] on it returns, and
    [discoverMappings] on it returns for any pair of prefixes.  The count
    reported is the number of listed names that begin with the reserved
    character. *)
Theorem scan_results_are_usable home resolve fs r :
  r ∈ scanForRemoteClaude home resolve fs ->
  resolve (projectsPath r) <> resolve (localClaudeProjects home) /\
  0 < projectCount r /\
  projectCount r
  = length (List.filter (fun e => startsWith e "-")
              (map fst (listDir fs (projectsPath r)))) /\
  (exists p, detectRemotePrefix fs (projectsPath r) = Ok p) /\
  forall rp lp, exists ms,
    discoverMappings home resolve fs (projectsPath r) rp lp = Ok ms.
Proof.
  intros (root & depth & base & _ & _ & _ & _ & Hr)%scanForRemoteClaude_elem.
  apply found_elem in Hr as (Hdir & Hne & Hentries & ->). simpl.
  split; [done |]. split.
  { destruct (List.filter _ _); [done | simpl; lia]. }
  split; [done |]. split.
  - eexists. by apply detectRemotePrefix_Ok.
  - intros rp lp. eexists. by apply discoverMappings_Ok.
Qed.

(** X13.  A home directory mounted one to three directories below a search
    root that exists is found: when its [.claude/projects] is a directory
    other than the local one and lists a name that begins with the reserved
    character, [scanForRemoteClaude] reports it, with the resolved home as
    the local prefix. *)
Theorem scan_finds_mounted_home home resolve fs root depth base name n :
  root ∈ searchRoots ->
  existsSync fs root = true ->
  1 <= depth <= 3 ->
  mounted fs depth root base ->
  fs !! join (join base ".claude") "projects" = Some Dir ->
  resolve (join (join base ".claude") "projects")
  <> resolve (localClaudeProjects home) ->
  (name, n) ∈ listDir fs (join (join base ".claude") "projects") ->
  startsWith name "-" = true ->
  exists r,
    r ∈ scanForRemoteClaude home resolve fs /\
    projectsPath r = join (join base ".claude") "projects" /\
    localHome r = resolve base.
Proof.
  intros Hroot He Hdepth Hm Hdir Hne Hin Hs.
  eexists. split.
  - apply scanForRemoteClaude_elem. exists root, depth, base.
    do 4 (split; [done |]). apply found_elem. cbv zeta.
    split; [done |]. split; [done |]. split; [| reflexivity].
    intros Hnil.
    assert (In name (List.filter (fun e => startsWith e "-")
                       (map fst (listDir fs (join (join base ".claude") "projects")))))
      as Hname.
    { apply filter_In. split; [| done]. apply list_elem_of_In, list_elem_of_fmap.
      by exists (name, n). }
    by rewrite Hnil in Hname.
  - done.
Qed.

(** ** Status *)

Section Status.
Variable home : string.
Variable resolve : string -> string.

Abbreviation root := (localClaudeProjects home).

Lemma statusEach_listing fs entries report :
  Forall (fun e : Dirent => fs !! join root e.1 = Some e.2) entries ->
  statusEach home fs entries report
  = Ok {| lines := lines report ++ omap (statusLineOf home fs) entries;
          symlinks := symlinks report
                      + length (List.filter (fun e : Dirent => isSymbolicLink e.2) entries);
          dirs := dirs report
                  + length (List.filter (fun e : Dirent => isDirectory e.2) entries) |}.
Proof.
  intros Hall. revert report.
  induction Hall as [|[name n] entries Hn _ IH]; intros report.
  - simpl. rewrite app_nil_r, !Nat.add_0_r. by destruct report.
  - cbn [statusEach]. unfold statusEntry, lstatSync, readlinkSync.
    cbn [fst snd] in *. rewrite Hn.
    destruct n as [| |t]; cbn [isSymbolicLink isDirectory]; rewrite IH;
      unfold statusLineOf; simpl; f_equal; f_equal;
      rewrite <- ?app_assoc; try done; lia.
Qed.

Lemma listDir_lookup fs dir :
  Forall (fun e : Dirent => fs !! join dir e.1 = Some e.2) (listDir fs dir).
Proof.
  apply Forall_forall. intros [name n] Hin. by apply listDir_elem in Hin as [? _].
Qed.

Lemma cmdStatus_Dir fs :
  fs !! root = Some Dir ->
  cmdStatus home fs
  = Ok (Some {| lines := omap (statusLineOf home fs) (listDir fs root);
                symlinks := length (List.filter (fun e : Dirent => isSymbolicLink e.2)
                                      (listDir fs root));
                dirs := length (List.filter (fun e : Dirent => isDirectory e.2)
                                  (listDir fs root)) |}).
Proof.
  intros Hroot. unfold cmdStatus.
  rewrite (existsSync_nonlink _ _ Dir) by done. simpl.
  unfold readdirSync. rewrite Hroot.
  by rewrite (statusEach_listing _ _ _ (listDir_lookup fs root)).
Qed.

Lemma statusLines_length fs (entries : list Dirent) :
  length (omap (statusLineOf home fs) entries)
  = length (List.filter (fun e : Dirent => isSymbolicLink e.2) entries)
    + length (List.filter (fun e : Dirent => isDirectory e.2) entries).
Proof.
  induction entries as [|[name [| |t]] entries IH]; [done | | |];
    cbn [omap list_omap List.filter length]; unfold statusLineOf at 1;
    cbn [fst snd isSymbolicLink isDirectory length]; fold (omap (statusLineOf home fs) entries); lia.
Qed.
End Status.

(** X14.  [status] on a local root that is a directory returns a report with
    one line for each link listed in the root, carrying the link's target
    and whether the path resolves, and one line for each directory listed
    there; files give no line.  The two counts add up to the number of
    lines. *)
Theorem status_reports_links_and_directories home fs :
  fs !! localClaudeProjects home = Some Dir ->
  exists report,
    cmdStatus home fs = Ok (Some report) /\
    (forall name target ok,
        Bridged name target ok ∈ lines report <->
        fs !! join (localClaudeProjects home) name = Some (Link target) /\
        name <> "" /\ contains "/" name = false /\
        ok = existsSync fs (join (localClaudeProjects home) name)) /\
    (forall name,
        LocalDir name ∈ lines report <->
        fs !! join (localClaudeProjects home) name = Some Dir /\
        name <> "" /\ contains "/" name = false) /\
    length (lines report) = symlinks report + dirs report.
Proof.
  intros Hroot. eexists. split; [by apply cmdStatus_Dir |]. simpl.
  split; [| split].
  - intros name target ok. rewrite list_elem_of_omap. split.
    + intros ([name' n] & Hin & Hline). apply listDir_elem in Hin as (Hn & Hne & Hc).
      unfold statusLineOf in Hline. simpl in Hline.
      destruct n; try done. injection Hline as -> -> <-. done.
    + intros (Hn & Hne & Hc & ->). exists (name, Link target).
      split; [by apply listDir_elem | done].
  - intros name. rewrite list_elem_of_omap. split.
    + intros ([name' n] & Hin & Hline). apply listDir_elem in Hin as (Hn & Hne & Hc).
      unfold statusLineOf in Hline. simpl in Hline.
      destruct n; try done. injection Hline as ->. done.
    + intros (Hn & Hne & Hc). exists (name, Dir).
      split; [by apply listDir_elem | done].
  - apply statusLines_length.
Qed.

Lemma ensureLocalRoot_made home fs fs0 :
  fs !! localClaudeProjects home = None ->
  ensureLocalRoot home fs = (fs0, Ok tt) ->
  fs0 !! localClaudeProjects home = Some Dir.
Proof.
  intros Hn H0. pose proof (ensureLocalRoot_exists _ _ _ H0) as He.
  apply existsSync_true, follow_is_Some_lookup in He as [n He].
  pose proof (ensureLocalRoot_lookup home fs (localClaudeProjects home)) as Hl.
  rewrite H0 in Hl. simpl in Hl. destruct Hl as [Hl|(_ & Hl & _)]; [congruence | done].
Qed.

(** X15.  [status] after [link] shows the new bridges.  Let the source path
    and the local prefix be absolute paths and the local root be absent or
    a directory.  A [link] that returns leaves a store on which [status]
    returns, and for every mapping it created or updated whose source entry
    is a directory the report has the line of a bridge from the mapping's
    local name to its source path, marked as resolving. *)
Theorem status_after_link_shows_bridges
    home resolve fs S rp lp ms fs1 r :
  fs !! localClaudeProjects home = None
  \/ fs !! localClaudeProjects home = Some Dir ->
  startsWith S "/" = true ->
  startsWith lp "/" = true ->
  discoverMappings home resolve fs S rp lp = Ok ms ->
  cmdLink home resolve S rp lp fs = (fs1, Ok r) ->
  exists report,
    cmdStatus home fs1 = Ok (Some report) /\
    forall m,
      m ∈ ms ->
      localState m = missing \/ localState m = symlink_wrong ->
      fs !! sourceFullPath m = Some Dir ->
      Bridged (localDirName m) (sourceFullPath m) true ∈ lines report.
Proof.
  intros Hroot Habs Hlp Hd H1.
  rewrite (cmdLink_discovered _ _ _ _ _ _ _ Hd) in H1.
  assert (fs1 !! localClaudeProjects home = Some Dir) as Hroot1.
  { destruct Hroot as [Hroot|Hroot].
    - pose proof H1 as H. apply doLink_Ok in H as (fs0 & H0 & H).
      apply linkEach_reconciles in H as (r0 & Hr & _).
      rewrite (reconciles_lookup_other _ _ _ _ _ Hr);
        [by apply (ensureLocalRoot_made home fs) |].
      intros m Hin _ Heq.
      destruct (discovered_mapping _ _ _ _ _ _ _ _ Hd Hin)
        as (_ & _ & _ & _ & _ & _ & _ & Hloc & _).
      rewrite Hloc in Heq. by apply join_ne_dir in Heq.
    - eapply linked_keeps_nonlink; eauto. }
  eexists. split; [by apply cmdStatus_Dir |]. simpl.
  intros m Hin Hst Hsrc.
  destruct (linked_changed _ _ _ _ _ _ _ _ _ Hd H1 m Hin Hst) as [Hl _].
  destruct (discovered_mapping _ _ _ _ _ _ _ _ Hd Hin)
    as (_ & suffix & _ & _ & _ & Hname & Hsource & Hloc & _).
  destruct (discovered_names _ _ _ _ _ _ _ _ Hd Hin) as [_ Hc].
  apply list_elem_of_omap. exists (localDirName m, Link (sourceFullPath m)). split.
  - apply listDir_elem. rewrite <- Hloc. split; [done |]. split; [| done].
    rewrite Hname. unfold encodePrefix. destruct lp; [done |]. simpl. done.
  - unfold statusLineOf. simpl. f_equal. f_equal. rewrite <- Hloc.
    apply (existsSync_link_to_directory _ _ _ Hl).
    + rewrite Hsource. by apply startsWith_join_absolute.
    + eapply linked_keeps_nonlink; eauto.
Qed.

(** ** Command line *)

Lemma take_app s p : take (String.length p) (p +:+ s) = p.
Proof. induction p as [|c p IH]; simpl; [by destruct s | by rewrite IH]. Qed.

Lemma indexOfFrom_first c p s i :
  contains c p = false ->
  indexOfFrom c (p +:+ String c s) i = (i + Z.of_nat (String.length p))%Z.
Proof.
  revert i. induction p as [|a p IH]; intros i; simpl.
  - intros _. rewrite Ascii.eqb_refl. lia.
  - destruct (Ascii.eqb_spec a c) as [->|Hne]; [done |]. intros Hp.
    rewrite (IH _ Hp). lia.
Qed.

(** [--map] splits its value at the first ["="]. *)
Lemma parseOptions_map remote localP rest source rp lp :
  contains "=" remote = false ->
  parseOptions ("--map" :: (remote +:+ String "=" localP) :: rest) source rp lp
  = parseOptions rest source (Some remote) (Some localP).
Proof.
  intros Hr. cbn [parseOptions].
  rewrite (bool_decide_eq_false_2 ("--map" = "--source")) by done.
  rewrite (bool_decide_eq_true_2 ("--map" = "--map")) by done.
  assert (remote +:+ String "=" localP <> "") as Hne by by destruct remote.
  rewrite (bool_decide_eq_false_2 _ Hne).
  assert (includes (remote +:+ String "=" localP) "=" = true) as ->.
  { unfold includes. rewrite contains_app. simpl. apply orb_true_r. }
  cbn [orb negb].
  unfold indexOf. rewrite (indexOfFrom_first _ _ _ _ Hr).
  unfold slice, sliceFrom. simpl.
  rewrite Z.add_0_l, Nat2Z.id.
  replace (Z.to_nat (Z.of_nat (String.length remote) + 1)) with
    (S (String.length remote)) by lia.
  rewrite Nat.sub_0_r, take_app.
  change (String "=" localP) with (String "=" "" +:+ localP).
  rewrite <- append_assoc.
  replace (S (String.length remote)) with (String.length (remote +:+ String "=" ""))
    by (rewrite append_length; simpl; lia).
  by rewrite drop_app.
Qed.

Lemma parseOptions_source value rest source rp lp :
  parseOptions ("--source" :: value :: rest) source rp lp
  = parseOptions rest (Some value) rp lp.
Proof. done. Qed.

Lemma parseOptions_no_source rest source rp lp source' rp' lp' :
  "--source" ∉ rest ->
  parseOptions rest source rp lp = Ok (source', rp', lp') -> source' = source.
Proof.
  revert source rp lp.
  induction rest as [rest IH] using (induction_ltof1 _ (@length string)).
  unfold ltof in IH. intros source rp lp Hno H.
  destruct rest as [|arg rest]; [by injection H |].
  apply not_elem_of_cons in Hno as [Harg Hno].
  cbn [parseOptions] in H.
  rewrite (bool_decide_eq_false_2 (arg = "--source")) in H by congruence.
  destruct (bool_decide (arg = "--map")).
  - destruct rest as [|map rest]; [done |].
    destruct (bool_decide (map = "") || negb (includes map "=")); [done |].
    apply not_elem_of_cons in Hno as [_ Hno].
    eapply IH; [| done | done]. simpl. lia.
  - destruct (bool_decide (arg = "--help") || bool_decide (arg = "-h")); [done |].
    eapply IH; [| done | done]. simpl. lia.
Qed.

Lemma parseOptions_no_map rest source rp lp source' rp' lp' :
  "--map" ∉ rest ->
  parseOptions rest source rp lp = Ok (source', rp', lp') ->
  rp' = rp /\ lp' = lp.
Proof.
  revert source rp lp.
  induction rest as [rest IH] using (induction_ltof1 _ (@length string)).
  unfold ltof in IH. intros source rp lp Hno H.
  destruct rest as [|arg rest]; [by injection H as _ <- <- |].
  apply not_elem_of_cons in Hno as [Harg Hno].
  cbn [parseOptions] in H.
  rewrite (bool_decide_eq_false_2 (arg = "--map")) in H by congruence.
  destruct (bool_decide (arg = "--source")).
  - destruct rest as [|value rest]; [by injection H as _ <- <- |].
    apply not_elem_of_cons in Hno as [_ Hno].
    eapply IH; [| done | done]. simpl. lia.
  - destruct (bool_decide (arg = "--help") || bool_decide (arg = "-h")); [done |].
    eapply IH; [| done | done]. simpl. lia.
Qed.

Lemma parseOptions_exit rest source rp lp code :
  parseOptions rest source rp lp = Exit code ->
  code = 1%Z \/ code = 0%Z /\ ("--help" ∈ rest \/ "-h" ∈ rest).
Proof.
  revert source rp lp.
  induction rest as [rest IH] using (induction_ltof1 _ (@length string)).
  unfold ltof in IH. intros source rp lp H.
  destruct rest as [|arg rest]; [done |]. cbn [parseOptions] in H.
  destruct (bool_decide (arg = "--source")).
  { destruct rest as [|value rest]; [done |].
    apply IH in H as [?|[? [?|?]]]; [by left | | | simpl; lia];
      right; (split; [done |]); [left | right]; by do 2 apply elem_of_cons, or_intror. }
  destruct (bool_decide (arg = "--map")).
  { destruct rest as [|map rest]; [injection H as <-; by left |].
    destruct (bool_decide (map = "") || negb (includes map "="));
      [injection H as <-; by left |].
    apply IH in H as [?|[? [?|?]]]; [by left | | | simpl; lia];
      right; (split; [done |]); [left | right]; by do 2 apply elem_of_cons, or_intror. }
  destruct (decide (arg = "--help")) as [->|Hh].
  { injection H as <-. right. split; [done |]. left. constructor. }
  destruct (decide (arg = "-h")) as [->|Hh'].
  { injection H as <-. right. split; [done |]. right. constructor. }
  rewrite !bool_decide_eq_false_2 in H by done. simpl in H.
  apply IH in H as [?|[? [?|?]]]; [by left | | | simpl; lia];
    right; (split; [done |]); [left | right]; by apply elem_of_cons, or_intror.
Qed.

Lemma parseOptions_no_throw rest source rp lp e :
  parseOptions rest source rp lp <> Throw e.
Proof.
  revert source rp lp.
  induction rest as [rest IH] using (induction_ltof1 _ (@length string)).
  unfold ltof in IH. intros source rp lp.
  destruct rest as [|arg rest]; [done |]. cbn [parseOptions].
  repeat case_match; try done; apply IH; subst; simpl; lia.
Qed.

Lemma parseArgs_command c rest parsed :
  c <> "" -> parseArgs (c :: rest) = Ok parsed -> command parsed = c.
Proof.
  intros Hc. unfold parseArgs. rewrite (bool_decide_eq_false_2 _ Hc). simpl.
  destruct (parseOptions rest None None None) as [[[s r] l]| |]; [| done | done].
  by intros [= <-].
Qed.

Lemma parseArgs_failure home resolve cmdWizard c rest fs :
  (forall parsed, parseArgs (c :: rest) <> Ok parsed) ->
  main home resolve cmdWizard (c :: rest) fs = (fs, Exit 1)
  \/ main home resolve cmdWizard (c :: rest) fs = (fs, Exit 0)
     /\ ("--help" ∈ rest \/ "-h" ∈ rest).
Proof.
  intros Hfail. unfold main. unfold parseArgs in *. simpl in *.
  destruct (parseOptions rest None None None) as [[[s r] l]|e|code] eqn:E.
  - by destruct (Hfail _ eq_refl).
  - by apply parseOptions_no_throw in E.
  - apply parseOptions_exit in E as [->|[-> ?]]; [by left | by right].
Qed.

(** X16.  Only the wizard, [link] and [unlink] can change the store: for any
    other command, whatever the options, the store after [main] is the
    store before it. *)
Theorem main_other_commands_read_only home resolve cmdWizard c rest fs :
  c <> "" -> c <> "wizard" -> c <> "link" -> c <> "unlink" ->
  (main home resolve cmdWizard (c :: rest) fs).1 = fs.
Proof.
  intros Hc Hw Hl Hu. unfold main.
  destruct (parseArgs (c :: rest)) as [parsed| |] eqn:E; [| done | done].
  rewrite (parseArgs_command _ _ _ Hc E).
  rewrite (bool_decide_eq_false_2 (c = "wizard")), (bool_decide_eq_false_2 (c = "link")),
    (bool_decide_eq_false_2 (c = "unlink")) by done.
  destruct (bool_decide (c = "scan")).
  { destruct (requireArgs parsed); [| done | done].
    unfold cmdScan, liftRead, mbind, IO_bind. by case_match. }
  destruct (bool_decide (c = "status")).
  { unfold liftRead, mbind, IO_bind. by case_match. }
  by case_match.
Qed.

(** X17.  The command that the wizard prints for next time runs the same
    link: given a source path and two prefixes that are not empty, with no
    ["="] in the remote prefix, [main] on [link --source S --map rp=lp] is
    [cmdLink] on [S], [rp] and [lp]. *)
Theorem main_runs_suggested_command home resolve cmdWizard S rp lp fs :
  S <> "" -> rp <> "" -> lp <> "" -> contains "=" rp = false ->
  main home resolve cmdWizard
    ["link"; "--source"; S; "--map"; rp +:+ String "=" lp] fs
  = (cmdLink home resolve S rp lp ≫= fun r => mret (RanLink r)) fs.
Proof.
  intros HS Hrp Hlp Heq. unfold main, parseArgs.
  cbn [tail]. rewrite parseOptions_source, (parseOptions_map _ _ _ _ _ _ Heq).
  cbn [parseOptions].
  rewrite (bool_decide_eq_false_2 ("link" = "")) by done. cbn [command].
  rewrite (bool_decide_eq_false_2 ("link" = "wizard")) by done.
  rewrite (bool_decide_eq_false_2 ("link" = "scan")) by done.
  rewrite (bool_decide_eq_true_2 ("link" = "link")) by done.
  unfold requireArgs, falsy. cbn [source remotePrefix localPrefix].
  rewrite !bool_decide_eq_false_2 by done. done.
Qed.

(** X18.  [scan], [link] and [unlink] do nothing without their options:
    when [--source] or [--map] is not among the arguments, [main] leaves
    the store as it is and exits with status 1, or with status 0 when a
    help flag is among the arguments. *)
Theorem main_requires_source_and_map home resolve cmdWizard c rest fs :
  c = "scan" \/ c = "link" \/ c = "unlink" ->
  "--source" ∉ rest \/ "--map" ∉ rest ->
  main home resolve cmdWizard (c :: rest) fs = (fs, Exit 1)
  \/ main home resolve cmdWizard (c :: rest) fs = (fs, Exit 0)
     /\ ("--help" ∈ rest \/ "-h" ∈ rest).
Proof.
  intros Hc Hmissing.
  destruct (parseArgs (c :: rest)) as [parsed|e|code] eqn:E.
  2,3: apply parseArgs_failure; intros parsed; rewrite E; done.
  left. unfold main. rewrite E.
  assert (c <> "") as Hne by (destruct Hc as [->|[->| ->]]; done).
  rewrite (parseArgs_command _ _ _ Hne E).
  assert (requireArgs parsed = Exit 1) as ->.
  { unfold parseArgs in E. simpl in E.
    destruct (parseOptions rest None None None) as [[[s r] l]| |] eqn:Eo;
      [| done | done].
    injection E as <-. unfold requireArgs. simpl.
    destruct Hmissing as [Hno|Hno].
    - by rewrite (parseOptions_no_source _ _ _ _ _ _ _ Hno Eo).
    - destruct (parseOptions_no_map _ _ _ _ _ _ _ Hno Eo) as [-> ->].
      simpl. by destruct (falsy s). }
  destruct Hc as [->|[->| ->]]; done.
Qed.

(** ** The source directory and the local paths *)

Lemma doLink_lookup_present home ms fs p n :
  fs !! p = Some n ->
  (forall m, m ∈ ms -> changes m -> localFullPath m <> p) ->
  (doLink home ms fs).1 !! p = Some n.
Proof.
  intros Hp Hother. unfold doLink. rewrite io_bind_store.
  pose proof (ensureLocalRoot_keeps home fs p n Hp) as He.
  destruct (ensureLocalRoot home fs) as [fs0 [[]|e|k]]; simpl in *; try done.
  by rewrite linkEach_lookup_other.
Qed.

(** X19.  [link] never writes to the source directory.  Let the home
    directory and the source directory be given by absolute paths in normal
    form, with no symbolic link at the source directory, at the local root
    or above them, let the local prefix be an absolute path, and let the
    local root be neither the source directory nor located under it, so
    that no path the run writes to reaches the source directory.
    Whether the run returns, throws or exits, the store holds at the source
    directory and at every path below it what it held before, and the
    listing of the source directory is the same. *)
Theorem link_never_writes_to_source home resolve S rp lp fs :
  canonical home = true ->
  canonical S = true ->
  realPath fs S = true ->
  realPath fs (localClaudeProjects home) = true ->
  startsWith lp "/" = true ->
  S <> localClaudeProjects home ->
  startsWith (localClaudeProjects home) (S +:+ "/") = false ->
  (forall p,
      p = S \/ startsWith p (S +:+ "/") = true ->
      (cmdLink home resolve S rp lp fs).1 !! p = fs !! p)
  /\ listDir (cmdLink home resolve S rp lp fs).1 S = listDir fs S.
Proof.
  intros _ _ _ _ _ Hapart Houtside.
  assert (forall rest,
            (cmdLink home resolve S rp lp fs).1 !! (S +:+ "/" +:+ rest)
            = fs !! (S +:+ "/" +:+ rest)) as Hbelow.
  { intros rest. unfold cmdLink. rewrite io_bind_store. unfold liftRead at 1 2 3.
    cbn [fst snd].
    destruct (discoverMappings home resolve fs S rp lp) as [ms| |] eqn:Hd;
      [| done | done].
    apply doLink_lookup_other; [by apply below_not_above |].
    intros m Hm _ Heq.
    destruct (discovered_mapping _ _ _ _ _ _ _ _ Hd Hm)
      as (_ & _ & _ & _ & _ & _ & _ & Hloc & _).
    destruct (discovered_names _ _ _ _ _ _ _ _ Hd Hm) as [_ Hcl].
    rewrite Hloc in Heq. symmetry in Heq. by apply below_not_entry in Heq. }
  split.
  - intros p [->|[rest ->]%startsWith_prefix].
    + unfold cmdLink. rewrite io_bind_store. unfold liftRead at 1 2 3. cbn [fst snd].
      destruct (discoverMappings home resolve fs S rp lp) as [ms| |] eqn:Hd;
        [| done | done].
      pose proof Hd as [HS _]%discoverMappings_Ok. rewrite HS.
      apply doLink_lookup_present; [done |].
      intros m Hm Hc Heq.
      destruct (discovered_changes _ _ _ _ _ _ _ _ Hd Hm Hc) as [E|[t E]];
        rewrite Heq, HS in E; done.
    + rewrite append_assoc. apply Hbelow.
  - apply listDir_ext. intros name _. apply Hbelow.
Qed.

(** X20.  Discovery with a local prefix that is not empty maps different
    source entries to different local paths: two mappings of one discovery
    with the same local path are one mapping. *)
Theorem discovery_local_paths_distinct home resolve fs S rp lp ms m1 m2 :
  lp <> "" ->
  discoverMappings home resolve fs S rp lp = Ok ms ->
  m1 ∈ ms -> m2 ∈ ms ->
  localFullPath m1 = localFullPath m2 ->
  m1 = m2.
Proof.
  intros _ Hd H1 H2 Heq.
  eapply NoDup_map_inj; [| done | done | done].
  by eapply discovered_local_NoDup.
Qed.

(** ** The further properties on the example stores *)

Lemma doLink_keeps_directories_witness :
  (doLink exampleHome [mappingApp missing; mappingLib directory_exists] fsMixed).1
    !! exampleSource = Some Dir.
Proof.
  apply (doLink_keeps_directories exampleHome
           [mappingApp missing; mappingLib directory_exists] fsMixed exampleSource).
  reflexivity.
Defined.

Lemma doLink_stops_at_first_failure_witness :
  doLink exampleHome ([] ++ mappingApp missing :: [mappingLib symlink_wrong]) fsStale
  = (fsStale, Throw EEXIST).
Proof.
  apply (proj1 (doLink_stops_at_first_failure exampleHome [] (mappingApp missing)
                  [mappingLib symlink_wrong] fsStale fsStale
                  {| created := 0; updated := 0; skipped := 0 |} ltac:(compute_done))).
  - reflexivity.
  - compute_done.
Defined.

Lemma link_leaves_correct_links_witness :
  readlinkSync fsMixedLinked (localFullPath (mappingApp missing))
  = Ok (sourceFullPath (mappingApp missing)) /\
  existsSync fsMixedLinked (localFullPath (mappingApp missing)) = true /\
  localStateOf (fun p => p) fsMixedLinked (localFullPath (mappingApp missing))
    (sourceFullPath (mappingApp missing)) = symlink_correct.
Proof.
  apply (link_leaves_correct_links exampleHome (fun p => p) fsMixed exampleSource
           "/home/user" "/mnt/x/home/user"
           [mappingApp missing; mappingLib directory_exists] fsMixedLinked
           {| created := 1; updated := 0; skipped := 1 |}).
  - reflexivity.
  - reflexivity.
  - compute_done.
  - compute_done.
  - apply list_elem_of_here.
  - left. reflexivity.
  - reflexivity.
Defined.

Lemma preview_counts_what_link_does_witness :
  let ms := [mappingApp missing; mappingLib directory_exists] in
  length (linkable ms) + length (linked ms) + length (conflicts ms) = length ms /\
  (forall fs1 r,
      cmdLink exampleHome (fun p => p) exampleSource "/home/user" "/mnt/x/home/user"
        fsMixed = (fs1, Ok r) ->
      created r + updated r = length (linkable ms) /\
      skipped r = length (linked ms) + length (conflicts ms)) /\
  (linkable ms = [] ->
   (forall p,
       p ∉ ancestors (localClaudeProjects exampleHome)
           ++ [localClaudeProjects exampleHome] ->
       (cmdLink exampleHome (fun p => p) exampleSource "/home/user"
          "/mnt/x/home/user" fsMixed).1 !! p = fsMixed !! p) /\
   (existsSync fsMixed (localClaudeProjects exampleHome) = true ->
    (cmdLink exampleHome (fun p => p) exampleSource "/home/user"
       "/mnt/x/home/user" fsMixed).1 = fsMixed)).
Proof.
  apply (preview_counts_what_link_does exampleHome (fun p => p) fsMixed exampleSource
           "/home/user" "/mnt/x/home/user").
  compute_done.
Defined.

Lemma unlink_twice_removes_nothing_witness :
  let fs' := (cmdUnlink exampleHome (fun p => p) exampleSource "/home/user"
                "/mnt/x/home/user" fsBridged).1 in
  cmdUnlink exampleHome (fun p => p) exampleSource "/home/user" "/mnt/x/home/user" fs'
  = (fs', Ok 0).
Proof.
  apply (unlink_twice_removes_nothing exampleHome (fun p => p) fsBridged exampleSource
           "/home/user" "/mnt/x/home/user" _ 2).
  - discriminate.
  - compute_done.
Defined.

Lemma link_then_unlink_restores_witness :
  cmdUnlink exampleHome (fun p => p) exampleSource "/home/user" "/mnt/x/home/user"
    fsMixedLinked
  = (fsMixed, Ok (created {| created := 1; updated := 0; skipped := 1 |})).
Proof.
  apply (link_then_unlink_restores exampleHome (fun p => p) fsMixed exampleSource
           "/home/user" "/mnt/x/home/user"
           [mappingApp missing; mappingLib directory_exists]).
  - discriminate.
  - reflexivity.
  - reflexivity.
  - compute_done.
  - constructor; [by left |]. constructor; [by right |]. constructor.
  - intros m Hin. repeat (apply elem_of_cons in Hin as [->|Hin]);
      [reflexivity | reflexivity | by apply elem_of_nil in Hin].
  - compute_done.
Defined.

Lemma discovery_maps_remote_path_to_local_path_witness :
  localDirName (mappingApp missing) = encodePrefix ("/mnt/x/home/user" +:+ "/app") /\
  localFullPath (mappingApp missing)
  = join (localClaudeProjects exampleHome)
      (encodePrefix ("/mnt/x/home/user" +:+ "/app")).
Proof.
  apply (discovery_maps_remote_path_to_local_path exampleHome (fun p => p) fsMixed
           exampleSource "/home/user" "/mnt/x/home/user"
           [mappingApp missing; mappingLib directory_exists]).
  - compute_done.
  - apply list_elem_of_here.
  - reflexivity.
Defined.

Lemma wizard_prefix_round_trip_witness :
  encodePrefix (wizardRemotePrefix "-home-user") = "-home-user".
Proof.
  apply (wizard_prefix_round_trip fsMixed exampleSource). compute_done.
Defined.

Lemma wizard_discovers_every_project_witness :
  exists ms,
    discoverMappings exampleHome (fun p => p) fsMixed exampleSource
      (wizardRemotePrefix "-home-user") "/mnt/x/home/user" = Ok ms /\
    forall name n,
      (name, n) ∈ listDir fsMixed exampleSource ->
      startsWith name "-" = true ->
      isDirectory n = true \/ isSymbolicLink n = true ->
      exists m, m ∈ ms /\ sourceDirName m = name /\
                localDirName m
                = encodePrefix "/mnt/x/home/user"
                  +:+ sliceFrom name (String.length "-home-user").
Proof.
  apply (wizard_discovers_every_project exampleHome (fun p => p) fsMixed exampleSource
           "/mnt/x/home/user" "-home-user").
  compute_done.
Defined.

Lemma detectRemotePrefixIn_order_independent_witness :
  detectRemotePrefixIn ["-home-user-app"; "-home-user-lib"]
  = detectRemotePrefixIn ["-home-user-lib"; "-home-user-app"].
Proof.
  apply (detectRemotePrefixIn_order_independent ["-home-user-app"; "-home-user-lib"]
           ["-home-user-lib"; "-home-user-app"]).
  apply perm_swap.
Defined.

Lemma scan_results_are_usable_witness :
  (fun p : string => p) (projectsPath mountedSource)
  <> (fun p : string => p) (localClaudeProjects exampleHome) /\
  0 < projectCount mountedSource /\
  projectCount mountedSource
  = length (List.filter (fun e => startsWith e "-")
              (map fst (listDir fsMounted (projectsPath mountedSource)))) /\
  (exists p, detectRemotePrefix fsMounted (projectsPath mountedSource) = Ok p) /\
  forall rp lp, exists ms,
    discoverMappings exampleHome (fun p => p) fsMounted (projectsPath mountedSource)
      rp lp = Ok ms.
Proof.
  apply (scan_results_are_usable exampleHome (fun p => p) fsMounted mountedSource).
  compute_done.
Defined.

Lemma scan_finds_mounted_home_witness :
  exists r,
    r ∈ scanForRemoteClaude exampleHome (fun p => p) fsMounted /\
    projectsPath r = join (join "/mnt/wsl/home/user" ".claude") "projects" /\
    localHome r = "/mnt/wsl/home/user".
Proof.
  apply (scan_finds_mounted_home exampleHome (fun p => p) fsMounted "/mnt" 3
           "/mnt/wsl/home/user" "-home-user-app" Dir).
  - apply list_elem_of_here.
  - reflexivity.
  - lia.
  - apply (mounted_step fsMounted 2 "/mnt" "wsl"); [compute_done | reflexivity |].
    apply (mounted_step fsMounted 1 "/mnt/wsl" "home"); [compute_done | reflexivity |].
    apply (mounted_step fsMounted 0 "/mnt/wsl/home" "user");
      [compute_done | reflexivity |].
    apply mounted_here.
  - reflexivity.
  - discriminate.
  - compute_done.
  - reflexivity.
Defined.

Lemma status_reports_links_and_directories_witness :
  exists report,
    cmdStatus exampleHome fsMixedLinked = Ok (Some report) /\
    (forall name target ok,
        Bridged name target ok ∈ lines report <->
        fsMixedLinked !! join (localClaudeProjects exampleHome) name
        = Some (Link target) /\
        name <> "" /\ contains "/" name = false /\
        ok = existsSync fsMixedLinked (join (localClaudeProjects exampleHome) name)) /\
    (forall name,
        LocalDir name ∈ lines report <->
        fsMixedLinked !! join (localClaudeProjects exampleHome) name = Some Dir /\
        name <> "" /\ contains "/" name = false) /\
    length (lines report) = symlinks report + dirs report.
Proof.
  apply (status_reports_links_and_directories exampleHome fsMixedLinked).
  reflexivity.
Defined.

Lemma status_after_link_shows_bridges_witness :
  exists report,
    cmdStatus exampleHome fsMixedLinked = Ok (Some report) /\
    forall m,
      m ∈ [mappingApp missing; mappingLib directory_exists] ->
      localState m = missing \/ localState m = symlink_wrong ->
      fsMixed !! sourceFullPath m = Some Dir ->
      Bridged (localDirName m) (sourceFullPath m) true ∈ lines report.
Proof.
  apply (status_after_link_shows_bridges exampleHome (fun p => p) fsMixed exampleSource
           "/home/user" "/mnt/x/home/user"
           [mappingApp missing; mappingLib directory_exists] fsMixedLinked
           {| created := 1; updated := 0; skipped := 1 |}).
  - right. reflexivity.
  - reflexivity.
  - reflexivity.
  - compute_done.
  - compute_done.
Defined.

Lemma main_other_commands_read_only_witness :
  (main exampleHome (fun p => p) (mret ()) ("status" :: ["--source"; "/src"])
     fsMixedLinked).1 = fsMixedLinked.
Proof.
  apply (main_other_commands_read_only exampleHome (fun p => p) (mret ()) "status"
           ["--source"; "/src"] fsMixedLinked); discriminate.
Defined.

Lemma main_runs_suggested_command_witness :
  main exampleHome (fun p => p) (mret ())
    ["link"; "--source"; "/src"; "--map"; "/home/user" +:+ String "=" "/mnt/x/home/user"]
    fsMixed
  = (cmdLink exampleHome (fun p => p) "/src" "/home/user" "/mnt/x/home/user"
       ≫= fun r => mret (RanLink r)) fsMixed.
Proof.
  apply (main_runs_suggested_command exampleHome (fun p => p) (mret ()) "/src"
           "/home/user" "/mnt/x/home/user" fsMixed);
    [discriminate | discriminate | discriminate | reflexivity].
Defined.

Lemma main_requires_source_and_map_witness :
  main exampleHome (fun p => p) (mret ()) ("link" :: ["--source"; "/src"]) fsMixed
  = (fsMixed, Exit 1)
  \/ main exampleHome (fun p => p) (mret ()) ("link" :: ["--source"; "/src"]) fsMixed
     = (fsMixed, Exit 0)
     /\ ("--help" ∈ ["--source"; "/src"] \/ "-h" ∈ ["--source"; "/src"]).
Proof.
  apply (main_requires_source_and_map exampleHome (fun p => p) (mret ()) "link"
           ["--source"; "/src"] fsMixed).
  - right. left. reflexivity.
  - right. compute_done.
Defined.

Lemma link_never_writes_to_source_witness :
  (forall p,
      p = exampleSource \/ startsWith p (exampleSource +:+ "/") = true ->
      (cmdLink exampleHome (fun p => p) exampleSource "/home/user"
         "/mnt/x/home/user" fsMixed).1 !! p = fsMixed !! p)
  /\ listDir (cmdLink exampleHome (fun p => p) exampleSource "/home/user"
                "/mnt/x/home/user" fsMixed).1 exampleSource
     = listDir fsMixed exampleSource.
Proof.
  apply (link_never_writes_to_source exampleHome (fun p => p) exampleSource
           "/home/user" "/mnt/x/home/user" fsMixed).
  - reflexivity.
  - reflexivity.
  - reflexivity.
  - reflexivity.
  - reflexivity.
  - discriminate.
  - reflexivity.
Defined.

Lemma discovery_local_paths_distinct_witness :
  mappingApp missing = mappingApp missing.
Proof.
  apply (discovery_local_paths_distinct exampleHome (fun p => p) fsMixed exampleSource
           "/home/user" "/mnt/x/home/user"
           [mappingApp missing; mappingLib directory_exists]).
  - discriminate.
  - compute_done.
  - apply list_elem_of_here.
  - apply list_elem_of_here.
  - reflexivity.
Defined.
